(** * SQL question-answering over a large database: the notebook's local logic

    A shallow embedding of [docs/docs/how_to/sql_large_db.ipynb].  The notebook
    defines two functions of its own ([get_tables] and [query_as_list]), one
    anonymous function (the join of the retrieved documents) and a handful of
    chains assembled from library runnables.  Calls that leave the notebook
    (the chat model, the database, the embedding service) are requests to a
    [world] whose answers may differ from call to call and may be exceptions.

    Python [str] is modelled by [string]: a sequence of 8-bit characters. *)

From Stdlib Require Import Ascii.
From stdpp Require Import base strings list sorting gmap.

Open Scope string_scope.
Open Scope list_scope.
Open Scope nat_scope.

(** * Part I: the program *)

(** ** Table selection: [get_tables] (cell 6) *)

(** [class Table(BaseModel)]: a single field, [name: str]. *)
Record Table : Type := mkTable { name : string }.

Definition music_tables : list string :=
  ["Album"; "Artist"; "Genre"; "MediaType"; "Playlist"; "PlaylistTrack"; "Track"].

Definition business_tables : list string :=
  ["Customer"; "Employee"; "Invoice"; "InvoiceLine"].

(** One iteration of the [for category in categories] loop: [tables.extend]
    appends at the end of the accumulator. *)
Definition get_tables_step (tables : list string) (category : Table) : list string :=
  if String.eqb (name category) "Music" then tables ++ music_tables
  else if String.eqb (name category) "Business" then tables ++ business_tables
  else tables.

(** [tables = []; for category in categories: ...; return tables]. *)
Definition get_tables (categories : list Table) : list string :=
  fold_left get_tables_step categories [].

(** What [db.get_usable_table_names()] printed in cell 1. *)
Definition usable_table_names : list string :=
  ["Album"; "Artist"; "Customer"; "Employee"; "Genre"; "Invoice";
   "InvoiceLine"; "MediaType"; "Playlist"; "PlaylistTrack"; "Track"].

(** The reading of [get_tables] as a concatenation: each category contributes
    its own block of names, in input order. *)
Definition category_tables (category : Table) : list string :=
  if String.eqb (name category) "Music" then music_tables
  else if String.eqb (name category) "Business" then business_tables
  else [].

Definition get_tables_spec (categories : list Table) : list string :=
  flat_map category_tables categories.

(** ** Python values, exceptions and results *)

Inductive exn : Type :=
  | KeyError (key : string)
  | NameError (var : string)
  | TypeError
  | LibraryError (msg : string).

Inductive result (A : Type) : Type :=
  | Ok (a : A)
  | Raise (e : exn).
Arguments Ok {A} a.
Arguments Raise {A} e.

#[global] Instance result_ret : MRet result := λ A a, Ok a.
#[global] Instance result_bind : MBind result := λ A B f r,
  match r with
  | Ok a => f a
  | Raise e => Raise e
  end.

(** The values [ast.literal_eval] builds from the printed rows of a query. *)
#[warnings="-register-all"]
Inductive pyval : Type :=
  | PyNone
  | PyBool (b : bool)
  | PyInt (z : Z)
  | PyStr (s : string)
  | PyTuple (items : list pyval)
  | PyList (items : list pyval).

(** [bool(v)], as the filter [if el] evaluates it. *)
Definition truthy (v : pyval) : bool :=
  match v with
  | PyNone => false
  | PyBool b => b
  | PyInt z => negb (Z.eqb z 0)
  | PyStr s => negb (String.eqb s "")
  | PyTuple items | PyList items =>
      match items with
      | [] => false
      | _ :: _ => true
      end
  end.

(** [iter(v)]: tuples and lists give their items, a string its characters,
    anything else is not iterable. *)
Definition py_iter (v : pyval) : result (list pyval) :=
  match v with
  | PyTuple items | PyList items => Ok items
  | PyStr s => Ok (map (λ c, PyStr (String c "")) (String.list_ascii_of_string s))
  | PyNone | PyBool _ | PyInt _ => Raise TypeError
  end.

(** A prompt template is a list of messages (role, text); the text is a
    sequence of literal pieces and [{variable}] holes. *)
Inductive segment : Type :=
  | Lit (text : string)
  | Var (variable : string).

(** ** What the notebook takes from its libraries without calling out

    The character classes of [re] and [str.strip], the parser
    [ast.literal_eval], the conversion [str(v)] of a value that is not a
    string, the prompt that [create_sql_query_chain] uses when none is given,
    and the vector store's embedding space with its order on scores. *)
Class External : Type := {
  is_digit : ascii → bool;
  is_word : ascii → bool;
  is_space : ascii → bool;
  literal_eval : string → result pyval;
  py_str : pyval → string;
  default_prompt : list (string * list segment);
  vec : Type;
  score : Type;
  distance : vec → vec → score;
  score_le : relation score;
  score_le_dec :: RelDecision score_le;
}.

(** What the proofs use of them: a digit is a word character, a whitespace
    character is not, and scores are totally preordered. *)
Class ExternalLaws `{External} : Prop := {
  digit_is_word : ∀ c, is_digit c = true → is_word c = true;
  space_not_word : ∀ c, is_space c = true → is_word c = false;
  score_le_total :: Total score_le;
  score_le_trans :: Transitive score_le;
}.

(** ** [re.sub(r"\b\d+\b", "", string)] and [str.strip()] *)

Section Regex.
Context `{External}.

Definition next_is_word (s : list ascii) : bool :=
  match s with
  | [] => false
  | c :: _ => is_word c
  end.

(** [\b]: exactly one of the two neighbouring positions holds a word
    character; outside the string there is none. *)
Definition boundary (prev_word : bool) (s : list ascii) : bool :=
  xorb prev_word (next_is_word s).

(** [\d+\b] at the head of [s]: the number of characters matched.  [\d+] is
    greedy, so the longer match is tried first and a shorter one only when
    the rest fails. *)
Fixpoint match_digits_boundary (s : list ascii) : option nat :=
  match s with
  | [] => None
  | c :: rest =>
      if is_digit c then
        match match_digits_boundary rest with
        | Some n => Some (S n)
        | None => if boundary (is_word c) rest then Some 1 else None
        end
      else None
  end.

(** [\b\d+\b] at the head of [s], after a character whose class is
    [prev_word]. *)
Definition match_here (prev_word : bool) (s : list ascii) : option nat :=
  if boundary prev_word s then match_digits_boundary s else None.

(** The scan of [re.sub] with the empty replacement: at each position of the
    subject a match is dropped whole ([skip] counts what is left of it) and
    the scan resumes behind it; without a match the character is kept. *)
Fixpoint sub_scan (prev_word : bool) (skip : nat) (s : list ascii) : list ascii :=
  match s with
  | [] => []
  | c :: rest =>
      match skip with
      | S n => sub_scan (is_word c) n rest
      | O =>
          match match_here prev_word s with
          | Some (S n) => sub_scan (is_word c) n rest
          | Some O | None => c :: sub_scan (is_word c) 0 rest
          end
      end
  end.

Definition re_sub_digits (s : string) : string :=
  String.string_of_list_ascii (sub_scan false 0 (String.list_ascii_of_string s)).

(** [re.search(r"\b\d+\b", s) is not None]. *)
Fixpoint search_scan (prev_word : bool) (s : list ascii) : bool :=
  match s with
  | [] => false
  | c :: rest =>
      match match_here prev_word s with
      | Some _ => true
      | None => search_scan (is_word c) rest
      end
  end.

Definition re_search_digits (s : string) : bool :=
  search_scan false (String.list_ascii_of_string s).

(** A run of [n] digits that ends at a non-word position (what a match of
    the pattern looks like). *)
Fixpoint digit_run (n : nat) (s : list ascii) : bool :=
  match n, s with
  | O, _ => negb (next_is_word s)
  | S m, c :: rest => is_digit c && digit_run m rest
  | S _, [] => false
  end.

Fixpoint lstrip_chars (s : list ascii) : list ascii :=
  match s with
  | [] => []
  | c :: rest => if is_space c then lstrip_chars rest else s
  end.

Definition rstrip_chars (s : list ascii) : list ascii :=
  reverse (lstrip_chars (reverse s)).

Definition strip (s : string) : string :=
  String.string_of_list_ascii (rstrip_chars (lstrip_chars (String.list_ascii_of_string s))).

(** Neither the first nor the last character is whitespace. *)
Definition no_outer_whitespace (s : string) : bool :=
  let l := String.list_ascii_of_string s in
  negb (from_option is_space false (head l))
  && negb (from_option is_space false (last l)).

(** A standalone digit token: a nonempty run of digits with no word
    character right before it and none right after it. *)
Definition standalone_digits (s : string) : Prop :=
  ∃ pre tok post,
    String.list_ascii_of_string s = pre ++ tok ++ post
    ∧ tok ≠ []
    ∧ forallb is_digit tok = true
    ∧ from_option is_word false (last pre) = false
    ∧ next_is_word post = false.

(** Every character is a digit and there is at least one. *)
Definition only_digits (s : string) : bool :=
  negb (String.eqb s "") && forallb is_digit (String.list_ascii_of_string s).

End Regex.

(** ** The outside world and the notebook's state *)

Record Document : Type := mkDocument { page_content : string }.

(** A request that leaves the notebook's own code. *)
Inductive event : Type :=
  | ChatTools (messages : list (string * string))
  | ChatText (messages : list (string * string))
  | DbRun (command : string)
  | DbTableInfo (table_names : option (list string))
  | LiteralEval (text : string)
  | EmbedDocuments (texts : list string)
  | EmbedQuery (text : string).

(** A request as the trace keeps it, with the exception it ended in, if any. *)
Record entry : Type := mkEntry { request : event; failure : option exn }.

(** The answers of the chat model (with the [Table] tool bound and its output
    parsed, and as plain text), of the database and of the embedding service.
    Each answer may depend on everything requested so far, so that the same
    request can be answered differently the next time, and may be an
    exception. *)
Record world `{External} : Type := {
  llm_with_tools : list entry → list (string * string) → result (list Table);
  llm : list entry → list (string * string) → result string;
  db_run : list entry → string → result string;
  db_get_table_info : list entry → option (list string) → result string;
  embed_documents : list entry → list string → result (list vec);
  embed_query : list entry → string → result vec;
}.

(** The requests made so far and the global variables the cells assign
    ([None]: not bound yet). *)
Record notebook `{External} : Type := mkNotebook {
  trace : list entry;
  proper_nouns : option (list string);
  vector_db : option (list (string * vec));
  query : option string;
}.

Section Monad.
Context `{External}.

Definition fresh : notebook :=
  {| trace := []; proper_nouns := None; vector_db := None; query := None |}.

Definition variables (nb : notebook)
  : option (list string) * option (list (string * vec)) * option string :=
  (proper_nouns nb, vector_db nb, query nb).

(** A computation runs on the notebook's state and ends with a value or an
    exception; the state it leaves is returned in both cases.  There is no
    operation that catches an exception: the notebook has no [try]. *)
Definition M (A : Type) : Type := notebook → notebook * result A.

#[global] Instance M_ret : MRet M := λ A a nb, (nb, Ok a).
#[global] Instance M_bind : MBind M := λ A B f m nb,
  match m nb with
  | (nb', Ok a) => f a nb'
  | (nb', Raise e) => (nb', Raise e)
  end.

Definition lift {A} (r : result A) : M A := λ nb, (nb, r).

Definition error_of {A} (r : result A) : option exn :=
  match r with
  | Ok _ => None
  | Raise e => Some e
  end.

Definition record (en : entry) (nb : notebook) : notebook :=
  {| trace := trace nb ++ [en]; proper_nouns := proper_nouns nb;
     vector_db := vector_db nb; query := query nb |}.

(** An external call: the world answers the request from what it has seen so
    far, and the request is recorded with its failure. *)
Definition call {A} (ev : event) (answer : list entry → result A) : M A :=
  λ nb, (record (mkEntry ev (error_of (answer (trace nb)))) nb, answer (trace nb)).

Definition load {A} (var : string) (field : notebook → option A) : M A :=
  λ nb, (nb, match field nb with
             | Some v => Ok v
             | None => Raise (NameError var)
             end).

Definition store_proper_nouns (v : list string) : M unit :=
  λ nb, ({| trace := trace nb; proper_nouns := Some v;
            vector_db := vector_db nb; query := query nb |}, Ok ()).

Definition store_vector_db (v : list (string * vec)) : M unit :=
  λ nb, ({| trace := trace nb; proper_nouns := proper_nouns nb;
            vector_db := Some v; query := query nb |}, Ok ()).

Definition store_query (v : string) : M unit :=
  λ nb, ({| trace := trace nb; proper_nouns := proper_nouns nb;
            vector_db := vector_db nb; query := Some v |}, Ok ()).

(** The requests a computation adds to the trace, and its outcome. *)
Definition requests {A} (m : M A) (nb : notebook) : list entry :=
  drop (length (trace nb)) (trace (m nb).1).

Definition outcome {A} (m : M A) (nb : notebook) : result A := (m nb).2.

(** An exception that Python itself raises in the notebook's code, as
    opposed to one that comes back from a library or a service. *)
Definition python_error (e : exn) : Prop :=
  match e with
  | KeyError _ | NameError _ | TypeError => True
  | LibraryError _ => False
  end.

Definition succeeded (en : entry) : Prop := failure en = None.

(** How a computation without handlers extends the trace: every request
    but the last has succeeded, and the computation raises either the
    exception of its last request or, after successful requests only, an
    exception of Python's own. *)
Definition propagating {A} (m : M A) : Prop :=
  ∀ nb, ∃ evs, trace (m nb).1 = trace nb ++ evs ∧
    match (m nb).2 with
    | Ok _ => Forall succeeded evs
    | Raise e =>
        ∃ before, Forall succeeded before ∧
          ((evs = before ∧ python_error e)
           ∨ ∃ ev, evs = before ++ [mkEntry ev (Some e)])
    end.

(** Every request the computation makes is of the kind [P]. *)
Definition footprint (P : event → Prop) {A} (m : M A) : Prop :=
  ∀ nb, ∃ evs, trace (m nb).1 = trace nb ++ evs
               ∧ Forall (λ en, P (request en)) evs.

Definition not_chat_text (ev : event) : Prop :=
  match ev with
  | ChatText _ => False
  | _ => True
  end.

(** The computation assigns no variable. *)
Definition reads_only {A} (m : M A) : Prop :=
  ∀ nb, variables (m nb).1 = variables nb.

Definition never_raises {A} (m : M A) : Prop :=
  ∀ nb, ∃ a, (m nb).2 = Ok a.

(** No handler: a request that fails is the last thing the computation does
    and its exception is the computation's outcome. *)
Definition unhandled {A} (m : M A) : Prop :=
  ∀ nb en e, en ∈ requests m nb → failure en = Some e →
    outcome m nb = Raise e ∧ last (requests m nb) = Some en.

(** A statement that raises leaves every variable as it was. *)
Definition failing_leaves_variables {A} (m : M A) : Prop :=
  ∀ nb e, outcome m nb = Raise e → variables (m nb).1 = variables nb.


End Monad.

(** ** Proper nouns: [query_as_list] and the vector store (cells 10 and 11) *)

Section ProperNouns.
Context `{External}.

(** [[el for sub in rows for el in sub if el]]. *)
Fixpoint flatten_truthy (rows : list pyval) : result (list pyval) :=
  match rows with
  | [] => Ok []
  | sub :: rest =>
      els ← py_iter sub;
      more ← flatten_truthy rest;
      Ok (filter (λ el, truthy el = true) els ++ more)
  end.

(** [re.sub(r"\b\d+\b", "", string).strip()]; [re.sub] rejects a subject
    that is not a string. *)
Definition clean (el : pyval) : result string :=
  match el with
  | PyStr s => Ok (strip (re_sub_digits s))
  | PyNone | PyBool _ | PyInt _ | PyTuple _ | PyList _ => Raise TypeError
  end.

(** The two comprehensions, on the value [ast.literal_eval] built. *)
Definition rows_as_list (parsed : pyval) : result (list string) :=
  rows ← py_iter parsed;
  els ← flatten_truthy rows;
  mapM clean els.

(** [res = db.run(query)], [ast.literal_eval(res)] and the two
    comprehensions.  The parse is kept in the trace like a request, so that
    its failure shows there too; its answer is [literal_eval], the same at
    every call. *)
Definition query_as_list (db : world) (sql : string) : M (list string) :=
  res ← call (DbRun sql) (λ h, db_run db h sql);
  parsed ← call (LiteralEval res) (λ _, literal_eval res);
  lift (rows_as_list parsed).

(** Cell 10, statement by statement.  [proper_nouns += e] loads the
    variable, evaluates [e] and stores the extended list; the cell displays
    [proper_nouns[:5]]. *)
Definition assign_proper_nouns (db : world) (sql : string) : M unit :=
  nouns ← query_as_list db sql;
  store_proper_nouns nouns.

Definition extend_proper_nouns (db : world) (sql : string) : M unit :=
  nouns ← load "proper_nouns" proper_nouns;
  more ← query_as_list db sql;
  store_proper_nouns (nouns ++ more).

Definition cell10 (db : world) : M (list string) :=
  assign_proper_nouns db "SELECT Name FROM Artist";;
  extend_proper_nouns db "SELECT Title FROM Album";;
  extend_proper_nouns db "SELECT Name FROM Genre";;
  nouns ← load "proper_nouns" proper_nouns;
  mret (take 5 nouns).

(** Modelled from the spec: [FAISS.from_texts] is not in the notebook; it
    builds "a precomputed embedding index" of the texts it is given, one
    vector per text, through the embedding service.  The model is meant for
    a non-empty list of texts, which is what cell 10 leaves on Chinook; the
    library's behaviour on an empty list is not described. *)
Definition from_texts (w : world) (texts : list string) : M (list (string * vec)) :=
  vectors ← call (EmbedDocuments texts) (λ h, embed_documents w h texts);
  mret (zip texts vectors).

(** Cell 11: [vector_db = FAISS.from_texts(proper_nouns, OpenAIEmbeddings())]. *)
Definition cell11 (w : world) : M unit :=
  nouns ← load "proper_nouns" proper_nouns;
  index ← from_texts w nouns;
  store_vector_db index.

(** [search_kwargs={"k": 15}]. *)
Definition search_k : nat := 15.

Definition closer (q : vec) (e1 e2 : string * vec) : Prop :=
  score_le (distance q e1.2) (distance q e2.2).

#[global] Instance closer_dec q : RelDecision (closer q) :=
  λ e1 e2, score_le_dec (distance q e1.2) (distance q e2.2).

(** Modelled from the spec: the vector store's search is not in the
    notebook; it "performs nearest-neighbor lookup against a precomputed
    embedding index" and "returns the top-K matches". *)
Definition nearest (index : list (string * vec)) (q : vec) (k : nat)
  : list (string * vec) :=
  take k (merge_sort (closer q) index).

(** The documents of the nearest entries: [page_content] is the text. *)
Definition similarity_search (index : list (string * vec)) (q : vec) (k : nat)
  : list Document :=
  map (λ e, mkDocument e.1) (nearest index q k).

(** [retriever = vector_db.as_retriever(search_kwargs={"k": 15})], invoked
    on a question: the question is embedded and the index that cell 11
    built is searched. *)
Definition retriever (w : world) (question : string) : M (list Document) :=
  index ← load "vector_db" vector_db;
  q ← call (EmbedQuery question) (λ h, embed_query w h question);
  mret (similarity_search index q search_k).

End ProperNouns.

(** ** Chains (cells 5 to 7 and 12) *)

Definition nl : string := String (ascii_of_nat 10) "".

(** Cell 5: the system message that offers the two categories. *)
Definition category_system : string :=
  "Return the names of any SQL tables that are relevant to the user question." +:+ nl +:+
  "The tables are:" +:+ nl +:+
  nl +:+
  "Music" +:+ nl +:+
  "Business" +:+ nl.

Definition category_prompt : list (string * list segment) :=
  [("system", [Lit category_system]); ("human", [Var "input"])].

(** Cell 12: the query-generation prompt with its [{proper_nouns}] hole; the
    three pieces of text that stand before the holes. *)
Definition system_lead : string :=
  "You are a SQLite expert. Given an input question, create a syntactically" +:+ nl +:+
  "correct SQLite query to run. Unless otherwise specificed, do not return more than" +:+ nl.

Definition system_table_info : string :=
  " rows." +:+ nl +:+
  nl +:+
  "Only return the SQL query with no markup or explanation." +:+ nl +:+
  nl +:+
  "Here is the relevant table info: ".

Definition system_values : string :=
  nl +:+
  nl +:+
  "Here is a non-exhaustive list of possible feature values. If filtering on a feature" +:+ nl +:+
  "value make sure to check its spelling against this list first:" +:+ nl +:+
  nl.

Definition proper_nouns_prompt : list (string * list segment) :=
  [("system",
    [Lit system_lead; Var "top_k"; Lit system_table_info; Var "table_info";
     Lit system_values; Var "proper_nouns"; Lit nl]);
   ("human", [Var "input"])].

(** The row limit [create_sql_query_chain] puts in [{top_k}] when the caller
    gives none (the [LIMIT 5] of cell 8's output). *)
Definition default_top_k : string := "5".

Section Chains.
Context `{External}.

(** The input of a chain is a Python dict with string keys,
    [gmap string pyval].  A value used where a [str], or a list of [str],
    is expected: *)
Definition as_str (v : pyval) : result string :=
  match v with
  | PyStr s => Ok s
  | PyNone | PyBool _ | PyInt _ | PyTuple _ | PyList _ => Raise TypeError
  end.

Definition as_str_list (v : pyval) : result (list string) :=
  match v with
  | PyTuple items | PyList items => mapM as_str items
  | PyNone | PyBool _ | PyInt _ | PyStr _ => Raise TypeError
  end.

Definition py_strs (l : list string) : pyval := PyList (map PyStr l).

(** [operator.itemgetter(key)]: [d[key]]. *)
Definition itemgetter (key : string) (d : gmap string pyval) : result pyval :=
  match d !! key with
  | Some v => Ok v
  | None => Raise (KeyError key)
  end.

(** Modelled from the spec: [ChatPromptTemplate] is library code that is not
    in the notebook; it "formats a prompt template with schema and retrieved
    values".  A hole takes the dict's value, a missing variable is a
    [KeyError]. *)
Definition format_segment (d : gmap string pyval) (seg : segment) : result string :=
  match seg with
  | Lit text => Ok text
  | Var v =>
      match d !! v with
      | Some (PyStr s) => Ok s
      | Some other => Ok (py_str other)
      | None => Raise (KeyError v)
      end
  end.

Definition format_message (d : gmap string pyval) (msg : string * list segment)
  : result (string * string) :=
  parts ← mapM (format_segment d) msg.2;
  Ok (msg.1, String.concat "" parts).

Definition format_prompt (template : list (string * list segment))
    (d : gmap string pyval) : result (list (string * string)) :=
  mapM (format_message d) template.

(** Modelled from the spec: the runnable operators are library code that is
    not in the notebook; "the notebook is a linear sequence of calls", so
    [a | b] feeds the output of [a] to [b], and
    [RunnablePassthrough.assign(key=r)] adds the output of [r] to its input
    dict under [key]. *)
Definition pipe {A B C} (a : A → M B) (b : B → M C) : A → M C :=
  λ x, y ← a x; b y.

Definition assign (key : string) (r : gmap string pyval → M pyval)
  : gmap string pyval → M (gmap string pyval) :=
  λ x, v ← r x; mret (<[key := v]> x).

(** Cell 5: [category_chain = prompt | llm_with_tools | output_parser].
    Modelled from the spec: the bound model and the parser are library code
    that is not in the notebook; the step is "implemented entirely by
    prompting a hosted language model and parsing its structured output",
    which is one request to the world here. *)
Definition category_chain (w : world) : gmap string pyval → M (list Table) :=
  pipe (λ x, lift (format_prompt category_prompt x))
       (λ messages, call (ChatTools messages) (λ h, llm_with_tools w h messages)).

(** Cell 6: [table_chain = category_chain | get_tables]; cell 7 puts
    [{"input": itemgetter("question")}] in front. *)
Definition table_chain (w : world) : gmap string pyval → M (list string) :=
  pipe (λ x, question ← lift (itemgetter "question" x);
             mret ({["input" := question]} : gmap string pyval))
       (pipe (category_chain w) (λ categories, mret (get_tables categories))).

(** [x.get("table_names_to_use")], as a list of names. *)
Definition table_names_to_use (x : gmap string pyval) : result (option (list string)) :=
  match x !! "table_names_to_use" with
  | Some v => l ← as_str_list v; Ok (Some l)
  | None => Ok None
  end.

(** The variables of the prompt: the caller's dict with [input], [top_k]
    and [table_info] filled in. *)
Definition prompt_variables (x : gmap string pyval) (question : pyval)
    (table_info : string) : gmap string pyval :=
  <["input" := question]>
    (<["top_k" := PyStr default_top_k]>
       (<["table_info" := PyStr table_info]> x)).

(** Modelled from the spec: [create_sql_query_chain] is library code that is
    not in the notebook; the query-construction step "formats a prompt
    template with schema and retrieved values, sends it to a hosted language
    model, and returns the raw text response as a SQL string".  The schema is
    that of the tables under [table_names_to_use] (all tables without the
    key), the question fills [{input}]. *)
Definition create_sql_query_chain (w : world) (prompt : list (string * list segment))
  : gmap string pyval → M string :=
  λ x,
    question ← lift (itemgetter "question" x);
    names ← lift (table_names_to_use x);
    table_info ← call (DbTableInfo names) (λ h, db_get_table_info w h names);
    messages ← lift (format_prompt prompt (prompt_variables x question table_info));
    call (ChatText messages) (λ h, llm w h messages).

(** Cell 7:
    [full_chain = RunnablePassthrough.assign(table_names_to_use=table_chain) | query_chain]
    with [query_chain = create_sql_query_chain(llm, db)]. *)
Definition full_chain (w : world) : gmap string pyval → M string :=
  pipe (assign "table_names_to_use"
          (λ x, tables ← table_chain w x; mret (py_strs tables)))
       (create_sql_query_chain w default_prompt).

(** Cell 12: [lambda docs: "\n".join(doc.page_content for doc in docs)]. *)
Definition join_docs (docs : list Document) : string :=
  String.concat nl (map page_content docs).

(** Cell 12: [retriever_chain = itemgetter("question") | retriever | (lambda ...)]. *)
Definition retriever_chain (w : world) : gmap string pyval → M string :=
  pipe (λ x, lift (itemgetter "question" x))
       (pipe (λ v, question ← lift (as_str v); retriever w question)
             (λ docs, mret (join_docs docs))).

(** Cell 12: [query_chain = create_sql_query_chain(llm, db, prompt=prompt)] and
    [chain = RunnablePassthrough.assign(proper_nouns=retriever_chain) | query_chain]. *)
Definition query_chain (w : world) : gmap string pyval → M string :=
  create_sql_query_chain w proper_nouns_prompt.

Definition chain (w : world) : gmap string pyval → M string :=
  pipe (assign "proper_nouns" (λ x, nouns ← retriever_chain w x; mret (PyStr nouns)))
       (query_chain w).

(** [query = <chain>.invoke(...)] followed by [print(query)], and
    [db.run(query)]. *)
Definition assign_query (generate : M string) : M string :=
  q ← generate;
  store_query q;;
  mret q.

Definition run_query (w : world) : M string :=
  q ← load "query" query;
  call (DbRun q) (λ h, db_run w h q).

(** Cells 8 and 9. *)
Definition cell8 (w : world) (question : string) : M string :=
  assign_query (full_chain w {["question" := PyStr question]}).

Definition cell9 (w : world) : M string := run_query w.

(** Cell 13 (without retrieval) and cell 14 (with retrieval): the query is
    generated, printed and run in the same cell. *)
Definition cell13 (w : world) (question : string) : M string :=
  assign_query
    (query_chain w (<["proper_nouns" := PyStr ""]> {["question" := PyStr question]}));;
  run_query w.

Definition cell14 (w : world) (question : string) : M string :=
  assign_query (chain w {["question" := PyStr question]});;
  run_query w.

(** The messages that the category prompt of cell 5 makes of a question. *)
Definition category_messages (question : string) : list (string * string) :=
  [("system", category_system); ("human", question)].

(** Table selection, then query generation, then execution. *)
Definition stage (ev : event) : nat :=
  match ev with
  | ChatTools _ => 0
  | DbTableInfo _ | ChatText _ => 1
  | DbRun _ => 2
  | LiteralEval _ | EmbedDocuments _ | EmbedQuery _ => 3
  end.

(** Cells 8 and 9 read as a fixed linear sequence: each request is made
    from what the one before it answered, and nothing follows a request
    that failed. *)
Definition pipeline_requests (w : world) (question : string) (h : list entry)
  : list entry :=
  let selection := category_messages question in
  match llm_with_tools w h selection with
  | Raise e => [mkEntry (ChatTools selection) (Some e)]
  | Ok categories =>
      let names := Some (get_tables categories) in
      let h1 := h ++ [mkEntry (ChatTools selection) None] in
      mkEntry (ChatTools selection) None ::
      match db_get_table_info w h1 names with
      | Raise e => [mkEntry (DbTableInfo names) (Some e)]
      | Ok table_info =>
          let h2 := h1 ++ [mkEntry (DbTableInfo names) None] in
          mkEntry (DbTableInfo names) None ::
          match format_prompt default_prompt
                  (prompt_variables
                     (<["table_names_to_use" := py_strs (get_tables categories)]>
                        {["question" := PyStr question]})
                     (PyStr question) table_info) with
          | Raise _ => []
          | Ok generation =>
              match llm w h2 generation with
              | Raise e => [mkEntry (ChatText generation) (Some e)]
              | Ok q =>
                  let h3 := h2 ++ [mkEntry (ChatText generation) None] in
                  [mkEntry (ChatText generation) None;
                   mkEntry (DbRun q) (error_of (db_run w h3 q))]
              end
          end
      end
  end.

(** The output of [m] is the chat model's text as it came: whenever [m] has
    asked the model for text, that was its last request and the answer is
    its outcome; and every string [m] returns is such an answer. *)
Definition raw_model_output (w : world) (m : M string) : Prop :=
  ∀ nb,
    (∀ pre messages f,
       requests m nb = pre ++ [mkEntry (ChatText messages) f] →
       outcome m nb = llm w (trace nb ++ pre) messages)
    ∧ (∀ sql, outcome m nb = Ok sql →
         ∃ pre messages,
           requests m nb = pre ++ [mkEntry (ChatText messages) None]
           ∧ llm w (trace nb ++ pre) messages = Ok sql).

(** A world whose chat model always writes [sql], whose database echoes the
    query it is given and whose embedding service is unreachable. *)
Definition echo_world (sql : string) : world :=
  {| llm_with_tools := λ _ _, Ok [];
     llm := λ _ _, Ok sql;
     db_run := λ _ q, Ok q;
     db_get_table_info := λ _ _, Ok "";
     embed_documents := λ _ _, Raise (LibraryError "APIConnectionError");
     embed_query := λ _ _, Raise (LibraryError "APIConnectionError") |}.





End Chains.

(** ** A concrete setting for running the program

    ASCII character classes (a character above 127 is in no class), integer
    vectors with the squared Euclidean distance, and [ast.literal_eval] given
    by its values on the result strings that the examples use. *)

Definition in_range (lo hi : nat) (c : ascii) : bool :=
  (lo <=? nat_of_ascii c)%nat && (nat_of_ascii c <=? hi)%nat.

Definition ascii_digit (c : ascii) : bool := in_range 48 57 c.

Definition ascii_word (c : ascii) : bool :=
  ascii_digit c || in_range 65 90 c || in_range 97 122 c || in_range 95 95 c.

Definition ascii_space (c : ascii) : bool :=
  in_range 9 13 c || in_range 28 32 c.

Definition literal_eval_table : list (string * pyval) :=
  [ ("[('Audioslave',)]", PyList [PyTuple [PyStr "Audioslave"]]);
    ("[('Rock',)]", PyList [PyTuple [PyStr "Rock"]]);
    ("[('Vol 1',), ('Vol 2',)]", PyList [PyTuple [PyStr "Vol 1"]; PyTuple [PyStr "Vol 2"]]);
    ("[('AC/DC',), (None,), ('',), ('1999',), ('2 Unlimited',)]",
     PyList [PyTuple [PyStr "AC/DC"]; PyTuple [PyNone]; PyTuple [PyStr ""];
             PyTuple [PyStr "1999"]; PyTuple [PyStr "2 Unlimited"]]);
    ("[(1, 'AC/DC')]", PyList [PyTuple [PyInt 1; PyStr "AC/DC"]]) ].

Definition literal_eval_by_table (s : string) : result pyval :=
  match list_find (λ entry, String.eqb entry.1 s = true) literal_eval_table with
  | Some (_, entry) => Ok entry.2
  | None => Raise (LibraryError "SyntaxError")
  end.

Definition py_str_atoms (v : pyval) : string :=
  match v with
  | PyNone => "None"
  | PyBool true => "True"
  | PyBool false => "False"
  | PyStr s => s
  | PyInt _ | PyTuple _ | PyList _ => "..."
  end.

Definition sq_distance (u v : list Z) : Z :=
  foldr Z.add 0%Z (zip_with (λ a b, (a - b) * (a - b))%Z u v).

#[global] Instance ascii_setting : External := {|
  is_digit := ascii_digit;
  is_word := ascii_word;
  is_space := ascii_space;
  literal_eval := literal_eval_by_table;
  py_str := py_str_atoms;
  default_prompt :=
    [("human", [Lit "Question: "; Var "input"; Lit " Tables: "; Var "table_info";
                Lit " Limit: "; Var "top_k"])];
  vec := list Z;
  score := Z;
  distance := sq_distance;
  score_le := Z.le;
  score_le_dec := Z.le_dec;
|}.

(** A world with fixed answers: the chat model always selects [categories]
    and writes [sql], the database prints [rows q] for the query [q], and a
    text is embedded by [embed]. *)
Definition scripted (categories : result (list Table)) (sql : result string)
    (rows : string → result string) (embed : string → result (list Z)) : world :=
  {| llm_with_tools := λ _ _, categories;
     llm := λ _ _, sql;
     db_run := λ _ q, rows q;
     db_get_table_info := λ _ names,
       Ok (String.concat "," (default usable_table_names names));
     embed_documents := λ _ texts, mapM embed texts;
     embed_query := λ _ text, embed text |}.

(** A database that prints the same five rows for every query. *)
Definition artist_db : world :=
  scripted (Ok [mkTable "Music"]) (Ok "SELECT Name FROM Artist")
    (λ _, Ok "[('AC/DC',), (None,), ('',), ('1999',), ('2 Unlimited',)]")
    (λ _, Ok [0%Z]).

(** A database whose connection is lost after the first query: the artists
    are printed, every later query raises. *)
Definition album_query_fails : world :=
  scripted (Ok [mkTable "Music"]) (Ok "SELECT Name FROM Artist")
    (λ q, if String.eqb q "SELECT Name FROM Artist" then Ok "[('Audioslave',)]"
          else Raise (LibraryError "OperationalError"))
    (λ _, Ok [0%Z]).

(** A database in which the artist Audioslave has an album of that name (as
    in Chinook), and one whose album titles differ in a number only. *)
Definition audioslave_db : world :=
  scripted (Ok [mkTable "Music"]) (Ok "SELECT Name FROM Artist")
    (λ q, if String.eqb q "SELECT Name FROM Genre" then Ok "[('Rock',)]"
          else Ok "[('Audioslave',)]")
    (λ _, Ok [0%Z]).

Definition volumes_db : world :=
  scripted (Ok [mkTable "Music"]) (Ok "SELECT Title FROM Album")
    (λ _, Ok "[('Vol 1',), ('Vol 2',)]")
    (λ _, Ok [0%Z]).

(** Seventeen artists, embedded by the length of their names. *)
Definition seventeen_artists : list string :=
  ["AC/DC"; "Accept"; "Aerosmith"; "Alanis Morissette"; "Alice In Chains";
   "Audioslave"; "BackBeat"; "Billy Cobham"; "Black Sabbath"; "Body Count";
   "Buddy Guy"; "Caetano Veloso"; "Chico Buarque"; "Cidade Negra";
   "Deep Purple"; "Def Leppard"; "Elis Regina"].

Definition length_world : world :=
  scripted (Ok [mkTable "Music"]) (Ok "SELECT Name FROM Artist")
    (λ _, Ok "[('Rock',)]")
    (λ text, Ok [Z.of_nat (String.length text)]).

Definition indexed_notebook : notebook :=
  (cell11 length_world
     {| trace := []; proper_nouns := Some seventeen_artists;
        vector_db := None; query := None |}).1.

(** A database that prints a number next to each name, as [SELECT * FROM
    Artist] does in cell 1. *)
Definition numbered_db : world :=
  scripted (Ok [mkTable "Music"]) (Ok "SELECT * FROM Artist")
    (λ _, Ok "[(1, 'AC/DC')]")
    (λ _, Ok [0%Z]).

(** ** Vocabulary for further properties *)

(** The two category names [get_tables] knows. *)
Definition is_music (category : Table) : bool := String.eqb (name category) "Music".

Definition is_business (category : Table) : bool :=
  String.eqb (name category) "Business".

Definition known_category (category : Table) : bool :=
  is_music category || is_business category.

(** What [iter] accepts. *)
Definition iterable (v : pyval) : bool :=
  match v with
  | PyTuple _ | PyList _ | PyStr _ => true
  | PyNone | PyBool _ | PyInt _ => false
  end.

Definition is_str (v : pyval) : bool :=
  match v with
  | PyStr _ => true
  | PyNone | PyBool _ | PyInt _ | PyTuple _ | PyList _ => false
  end.

Section CellsMore.
Context `{External}.

(** The state a computation leaves. *)
Definition after {A} (m : M A) (nb : notebook) : notebook := (m nb).1.

Definition extend_trace (evs : list entry) (nb : notebook) : notebook :=
  {| trace := trace nb ++ evs; proper_nouns := proper_nouns nb;
     vector_db := vector_db nb; query := query nb |}.

(** What [query_as_list] requests and returns, as functions of the requests
    made before it. *)
Definition query_requests (db : world) (sql : string) (h : list entry) : list entry :=
  match db_run db h sql with
  | Raise e => [mkEntry (DbRun sql) (Some e)]
  | Ok res => [mkEntry (DbRun sql) None;
               mkEntry (LiteralEval res) (error_of (literal_eval res))]
  end.

Definition query_result (db : world) (sql : string) (h : list entry)
  : result (list string) :=
  res ← db_run db h sql;
  parsed ← literal_eval res;
  rows_as_list parsed.

(** Requests to the chat model. *)
Definition is_chat (en : entry) : bool :=
  match request en with
  | ChatTools _ | ChatText _ => true
  | DbRun _ | DbTableInfo _ | LiteralEval _ | EmbedDocuments _ | EmbedQuery _ => false
  end.

Definition is_db_run (ev : event) : bool :=
  match ev with
  | DbRun _ => true
  | ChatTools _ | ChatText _ | DbTableInfo _ | LiteralEval _ | EmbedDocuments _
  | EmbedQuery _ => false
  end.

End CellsMore.

(** A notebook whose index holds two entries. *)
Definition two_entry_index : list (string * @vec ascii_setting) :=
  [("Jazz", [4%Z]); ("Rock and Roll", [13%Z])].

Definition two_entry_notebook : notebook :=
  {| trace := []; proper_nouns := None; vector_db := Some two_entry_index;
     query := None |}.

(** * Part II: properties *)

(** ** Table selection *)

Example get_tables_cell6 :
  get_tables [mkTable "Music"; mkTable "Business"] =
  ["Album"; "Artist"; "Genre"; "MediaType"; "Playlist"; "PlaylistTrack";
   "Track"; "Customer"; "Employee"; "Invoice"; "InvoiceLine"].
Proof. reflexivity. Qed.

Section GetTables.

Lemma get_tables_step_app tables category :
  get_tables_step tables category = tables ++ category_tables category.
Proof.
  unfold get_tables_step, category_tables.
  destruct (String.eqb (name category) "Music"); [done|].
  destruct (String.eqb (name category) "Business"); [done|].
  by rewrite app_nil_r.
Qed.

Lemma fold_get_tables_step categories acc :
  fold_left get_tables_step categories acc = acc ++ get_tables_spec categories.
Proof.
  revert acc. induction categories as [|c cs IH]; intros acc; simpl.
  - by rewrite app_nil_r.
  - rewrite IH, get_tables_step_app. by rewrite <- app_assoc.
Qed.

Lemma get_tables_flat_map categories :
  get_tables categories = get_tables_spec categories.
Proof. unfold get_tables. by rewrite fold_get_tables_step. Qed.

Lemma get_tables_app cs1 cs2 :
  get_tables (cs1 ++ cs2) = get_tables cs1 ++ get_tables cs2.
Proof. rewrite !get_tables_flat_map. unfold get_tables_spec. apply flat_map_app. Qed.

Lemma category_tables_usable category :
  Forall (λ t, t ∈ usable_table_names) (category_tables category).
Proof.
  unfold category_tables.
  destruct (String.eqb (name category) "Music").
  { unfold music_tables, usable_table_names. repeat constructor; set_solver. }
  destruct (String.eqb (name category) "Business").
  { unfold business_tables, usable_table_names. repeat constructor; set_solver. }
  constructor.
Qed.

End GetTables.

(** C2: every string returned by [get_tables], on any list of categories, is
    one of the eleven usable table names of the database. *)
Theorem get_tables_subset_usable (categories : list Table) :
  Forall (λ t, t ∈ usable_table_names) (get_tables categories).
Proof.
  rewrite get_tables_flat_map. unfold get_tables_spec.
  induction categories as [|c cs IH]; simpl.
  - constructor.
  - apply Forall_app. split; [apply category_tables_usable | exact IH].
Qed.

(** C8: [get_tables] is the concatenation, in input order, of the seven music
    tables (Album, Artist, Genre, MediaType, Playlist, PlaylistTrack, Track)
    for each element named "Music" and the four business tables (Customer,
    Employee, Invoice, InvoiceLine) for each element named "Business"; an
    element with any other name contributes nothing, the empty list gives the
    empty list, and a repeated category repeats its tables. *)
Theorem get_tables_concatenation (categories : list Table) :
  get_tables categories
  = flat_map
      (λ category,
         if String.eqb (name category) "Music"
         then ["Album"; "Artist"; "Genre"; "MediaType"; "Playlist"; "PlaylistTrack";
               "Track"]
         else if String.eqb (name category) "Business"
         then ["Customer"; "Employee"; "Invoice"; "InvoiceLine"]
         else [])
      categories
  ∧ get_tables [mkTable "Music"]
    = ["Album"; "Artist"; "Genre"; "MediaType"; "Playlist"; "PlaylistTrack"; "Track"]
  ∧ get_tables [mkTable "Business"] = ["Customer"; "Employee"; "Invoice"; "InvoiceLine"]
  ∧ (∀ c, String.eqb (name c) "Music" = false →
          String.eqb (name c) "Business" = false →
          get_tables (categories ++ [c]) = get_tables categories
          ∧ get_tables (c :: categories) = get_tables categories
          ∧ get_tables [c] = [])
  ∧ get_tables [] = []
  ∧ get_tables (categories ++ categories) = get_tables categories ++ get_tables categories
  ∧ get_tables [mkTable "Music"; mkTable "Music"]
    = ["Album"; "Artist"; "Genre"; "MediaType"; "Playlist"; "PlaylistTrack"; "Track";
       "Album"; "Artist"; "Genre"; "MediaType"; "Playlist"; "PlaylistTrack"; "Track"]
  ∧ get_tables [mkTable "Business"; mkTable "Music"; mkTable "Business"]
    = ["Customer"; "Employee"; "Invoice"; "InvoiceLine";
       "Album"; "Artist"; "Genre"; "MediaType"; "Playlist"; "PlaylistTrack"; "Track";
       "Customer"; "Employee"; "Invoice"; "InvoiceLine"].
Proof.
  split; [apply get_tables_flat_map|].
  split; [reflexivity|]. split; [reflexivity|].
  split.
  { intros c Hm Hb.
    assert (get_tables [c] = []) as Hc.
    { unfold get_tables. simpl. unfold get_tables_step. by rewrite Hm, Hb. }
    split_and!.
    - by rewrite get_tables_app, Hc, app_nil_r.
    - change (c :: categories) with ([c] ++ categories).
      by rewrite get_tables_app, Hc.
    - exact Hc. }
  split; [reflexivity|].
  split; [apply get_tables_app|]. split; reflexivity.
Qed.

(** ** The digit pattern and [strip] *)

Section RegexFacts.
Context `{ExternalLaws}.

Lemma digit_not_word c : is_word c = false → is_digit c = false.
Proof.
  intros Hw. destruct (is_digit c) eqn:Hd; [|done].
  apply digit_is_word in Hd. congruence.
Qed.

Lemma space_not_digit c : is_space c = true → is_digit c = false.
Proof. intros Hs. apply digit_not_word. by apply space_not_word. Qed.

Lemma match_digits_boundary_run s n :
  match_digits_boundary s = Some n → n ≠ 0 ∧ digit_run n s = true.
Proof.
  revert n. induction s as [|c rest IH]; intros n; simpl; [done|].
  destruct (is_digit c) eqn:Hd; [|done].
  destruct (match_digits_boundary rest) as [m|] eqn:Hm.
  - intros [= <-]. split; [done|]. simpl. rewrite Hd. by apply IH.
  - unfold boundary. rewrite (digit_is_word _ Hd). simpl.
    destruct (next_is_word rest) eqn:Hn; simpl; [done|].
    intros [= <-]. split; [done|]. simpl. by rewrite Hd, Hn.
Qed.

Lemma match_digits_boundary_all s :
  s ≠ [] → forallb is_digit s = true → match_digits_boundary s = Some (length s).
Proof.
  induction s as [|c rest IH]; [done|]. intros _. simpl.
  intros [Hd Hrest]%andb_prop. rewrite Hd.
  destruct rest as [|c' rest'].
  - simpl. unfold boundary. by rewrite (digit_is_word _ Hd).
  - by rewrite IH.
Qed.

Lemma sub_scan_short s pw n : (length s ≤ n)%nat → sub_scan pw n s = [].
Proof.
  revert pw n. induction s as [|c rest IH]; intros pw n Hlen; [done|].
  simpl in *. destruct n as [|n]; [lia|]. apply IH. lia.
Qed.

(** After a word character nothing is dropped at the next position. *)
Lemma sub_scan_after_word c rest :
  sub_scan true 0 (c :: rest) = c :: sub_scan (is_word c) 0 rest.
Proof.
  simpl. unfold match_here, boundary. simpl.
  destruct (is_word c) eqn:Hw; simpl; [done|].
  by rewrite (digit_not_word _ Hw).
Qed.

Lemma next_is_word_sub_scan s :
  next_is_word (sub_scan true 0 s) = next_is_word s.
Proof. destruct s as [|c rest]; [done|]. by rewrite sub_scan_after_word. Qed.

Lemma match_digits_boundary_sub_scan s :
  match_digits_boundary (sub_scan true 0 s) = match_digits_boundary s.
Proof.
  induction s as [|c rest IH]; [done|].
  rewrite sub_scan_after_word. simpl.
  destruct (is_digit c) eqn:Hd; [|done].
  rewrite (digit_is_word _ Hd), IH.
  unfold boundary. by rewrite next_is_word_sub_scan.
Qed.

(** What [re.sub] leaves holds no match any more; the three cases are the
    three states of the scan: at a position like any other, right behind a
    dropped match, and inside a match that is being dropped. *)
Lemma search_scan_sub_scan s :
  (∀ pw, search_scan pw (sub_scan pw 0 s) = false)
  ∧ (next_is_word s = false → search_scan false (sub_scan true 0 s) = false)
  ∧ (∀ pw n, digit_run (S n) s = true → search_scan false (sub_scan pw (S n) s) = false).
Proof.
  induction s as [|c rest (IHa & IHb & IHc)]; [done|].
  assert (Hskip : ∀ n, digit_run (S n) (c :: rest) = true →
                       search_scan false (sub_scan (is_word c) n rest) = false).
  { intros n. simpl. intros [Hd Hrun]%andb_prop.
    rewrite (digit_is_word _ Hd).
    destruct n as [|n]; [|by apply IHc].
    apply IHb. simpl in Hrun. by destruct (next_is_word rest). }
  split; [|split].
  - intros pw. simpl.
    destruct (match_here pw (c :: rest)) as [[|n]|] eqn:Hm.
    + unfold match_here in Hm. destruct (boundary pw (c :: rest)); [|done].
      by apply match_digits_boundary_run in Hm as [? _].
    + unfold match_here in Hm.
      destruct (boundary pw (c :: rest)) eqn:Hb; [|done].
      apply match_digits_boundary_run in Hm as [_ Hrun].
      assert (pw = false) as ->.
      { simpl in Hrun. apply andb_prop in Hrun as [Hd _].
        revert Hb. unfold boundary. simpl. rewrite (digit_is_word _ Hd).
        by destruct pw. }
      by apply Hskip.
    + assert (match_here pw (c :: sub_scan (is_word c) 0 rest) = None) as Hm'.
      { revert Hm. unfold match_here, boundary. simpl.
        destruct (xorb pw (is_word c)); [|done].
        destruct (is_digit c) eqn:Hd; [|done].
        rewrite (digit_is_word _ Hd), match_digits_boundary_sub_scan.
        unfold boundary. by rewrite next_is_word_sub_scan. }
      cbn [search_scan]. rewrite Hm'. apply IHa.
  - intros Hw. rewrite sub_scan_after_word. simpl in Hw.
    cbn [search_scan]. unfold match_here, boundary. simpl. rewrite Hw. simpl.
    apply IHa.
  - intros pw n Hrun. simpl. by apply Hskip.
Qed.

Lemma search_scan_snoc pw s c :
  is_word c = false → search_scan pw (s ++ [c]) = search_scan pw s.
Proof.
  intros Hw. pose proof (digit_not_word _ Hw) as Hd.
  assert (Hnext : ∀ s, next_is_word (s ++ [c]) = next_is_word s).
  { intros [|??]; [|done]. simpl. done. }
  assert (Hmatch : ∀ s, match_digits_boundary (s ++ [c]) = match_digits_boundary s).
  { intros s'. induction s' as [|a s' IH]; simpl; [by rewrite Hd|].
    rewrite IH. unfold boundary. by rewrite Hnext. }
  revert pw. induction s as [|a s IH]; intros pw.
  - simpl. unfold match_here. simpl. rewrite Hd. by destruct (boundary pw [c]).
  - change ((a :: s) ++ [c]) with (a :: (s ++ [c])).
    cbn [search_scan]. rewrite IH.
    unfold match_here, boundary.
    change (a :: (s ++ [c])) with ((a :: s) ++ [c]).
    by rewrite Hmatch, Hnext.
Qed.

Lemma search_scan_lstrip s :
  search_scan false (lstrip_chars s) = search_scan false s.
Proof.
  induction s as [|c rest IH]; [done|]. simpl.
  destruct (is_space c) eqn:Hs; [|done].
  unfold match_here, boundary. simpl.
  by rewrite (space_not_word _ Hs).
Qed.

Lemma search_scan_rstrip pw s :
  search_scan pw (rstrip_chars s) = search_scan pw s.
Proof.
  unfold rstrip_chars. rewrite <- (reverse_involutive s) at 2.
  induction (reverse s) as [|c r IH]; [done|]. simpl.
  destruct (is_space c) eqn:Hs; [|done].
  rewrite IH, reverse_cons. symmetry. apply search_scan_snoc. by apply space_not_word.
Qed.

Lemma to_list_of_list l :
  String.list_ascii_of_string (String.string_of_list_ascii l) = l.
Proof. apply String.list_ascii_of_string_of_list_ascii. Qed.

Lemma re_search_strip_sub s : re_search_digits (strip (re_sub_digits s)) = false.
Proof.
  unfold re_search_digits, strip, re_sub_digits. rewrite !to_list_of_list.
  rewrite search_scan_rstrip, search_scan_lstrip.
  apply search_scan_sub_scan.
Qed.

(** A token as the matcher sees it. *)
Lemma match_digits_boundary_token tok post :
  tok ≠ [] → forallb is_digit tok = true → next_is_word post = false →
  match_digits_boundary (tok ++ post) = Some (length tok).
Proof.
  intros Hne Hall Hpost.
  assert (match_digits_boundary post = None) as Hnone.
  { destruct post as [|c post]; [done|]. simpl in *.
    by rewrite (digit_not_word _ Hpost). }
  induction tok as [|d tok IH]; [done|]. simpl in Hall |- *.
  apply andb_prop in Hall as [Hd Hall]. rewrite Hd.
  destruct tok as [|d' tok'].
  - simpl. rewrite Hnone. unfold boundary.
    by rewrite (digit_is_word _ Hd), Hpost.
  - by rewrite IH.
Qed.

(** When the search finds nothing, there is no standalone digit token. *)
Lemma search_scan_standalone l :
  ∀ pw pre tok post,
    search_scan pw l = false →
    l = pre ++ tok ++ post → tok ≠ [] → forallb is_digit tok = true →
    from_option is_word pw (last pre) = false → next_is_word post = false →
    False.
Proof.
  induction l as [|c rest IH]; intros pw pre tok post Hsearch Hl Hne Hall Hpre Hpost.
  { destruct pre, tok; done. }
  simpl in Hsearch.
  destruct (match_here pw (c :: rest)) as [n|] eqn:Hm; [done|].
  destruct pre as [|p pre].
  - simpl in Hl, Hpre. subst pw. rewrite Hl in Hm.
    unfold match_here in Hm.
    rewrite (match_digits_boundary_token tok post Hne Hall Hpost) in Hm.
    destruct tok as [|d tok]; [done|].
    pose proof Hall as [Hd _]%andb_prop.
    unfold boundary in Hm. simpl in Hm.
    by rewrite (digit_is_word _ Hd) in Hm.
  - injection Hl as <- Hrest.
    apply (IH (is_word c) pre tok post); try done.
    destruct pre as [|p' pre']; [done|].
    rewrite last_cons_cons in Hpre.
    destruct (last (p' :: pre')) eqn:Hlast; [done|].
    by apply last_None in Hlast.
Qed.

Lemma no_standalone_digits_strip_sub s : ¬ standalone_digits (strip (re_sub_digits s)).
Proof.
  intros (pre & tok & post & Hl & Hne & Hall & Hpre & Hpost).
  apply (search_scan_standalone _ false pre tok post
           (re_search_strip_sub s) Hl Hne Hall); [|done].
  by destruct (last pre).
Qed.

Lemma head_lstrip s : from_option is_space false (head (lstrip_chars s)) = false.
Proof.
  induction s as [|c rest IH]; [done|]. simpl.
  destruct (is_space c) eqn:Hs; [done|]. simpl. done.
Qed.

Lemma last_rstrip s : from_option is_space false (last (rstrip_chars s)) = false.
Proof.
  unfold rstrip_chars. rewrite last_reverse. apply head_lstrip.
Qed.

Lemma rstrip_prefix s : ∃ t, s = rstrip_chars s ++ t.
Proof.
  unfold rstrip_chars.
  assert (∀ r, ∃ t, reverse r = reverse (lstrip_chars r) ++ t) as Hrev.
  { intros r. induction r as [|c r [t IH]]; [by exists []|]. simpl.
    destruct (is_space c).
    - exists (t ++ [c]). by rewrite reverse_cons, IH, <- app_assoc at 1.
    - exists []. by rewrite app_nil_r. }
  destruct (Hrev (reverse s)) as [t Ht]. exists t.
  by rewrite <- Ht, reverse_involutive.
Qed.

Lemma head_rstrip s :
  from_option is_space false (head s) = false →
  from_option is_space false (head (rstrip_chars s)) = false.
Proof.
  destruct (rstrip_prefix s) as [t Ht].
  destruct (rstrip_chars s) as [|c r]; [done|].
  rewrite Ht. done.
Qed.

Lemma no_outer_whitespace_strip s : no_outer_whitespace (strip s) = true.
Proof.
  unfold no_outer_whitespace, strip. rewrite to_list_of_list.
  rewrite head_rstrip by apply head_lstrip.
  by rewrite last_rstrip.
Qed.

Lemma sub_scan_all_digits l :
  l ≠ [] → forallb is_digit l = true → sub_scan false 0 l = [].
Proof.
  destruct l as [|c rest]; [done|]. intros _ Hall.
  assert (match_here false (c :: rest) = Some (S (length rest))) as Hm.
  { unfold match_here, boundary. cbn [next_is_word].
    pose proof Hall as [Hd _]%andb_prop.
    rewrite (digit_is_word _ Hd). cbn [xorb].
    by apply match_digits_boundary_all. }
  cbn [sub_scan]. rewrite Hm. by apply sub_scan_short.
Qed.

Lemma only_digits_erased s : only_digits s = true → strip (re_sub_digits s) = "".
Proof.
  unfold only_digits, strip, re_sub_digits.
  intros [Hne Hall]%andb_prop.
  rewrite sub_scan_all_digits; [done| |done].
  by destruct s.
Qed.

End RegexFacts.

Example clean_examples :
  map (λ s, strip (re_sub_digits s))
    ["AC/DC"; " 1999 "; "2 Unlimited"; "Vol 1"; "a1 22 b_3 4"; "1.2"; "10,000 Maniacs"; "U2"]
  = ["AC/DC"; ""; "Unlimited"; "Vol"; "a1  b_3"; "."; ", Maniacs"; "U2"].
Proof. reflexivity. Qed.

Example search_examples :
  map re_search_digits ["AC/DC"; " 1999 "; "2 Unlimited"; "U2"; "a 1"]
  = [false; true; true; false; true].
Proof. reflexivity. Qed.

(** ** The monad of the notebook *)

Section MonadFacts.
Context `{External}.

Lemma run_bind {A B} (m : M A) (f : A → M B) nb :
  (m ≫= f) nb =
  match m nb with
  | (nb', Ok a) => f a nb'
  | (nb', Raise e) => (nb', Raise e)
  end.
Proof. reflexivity. Qed.

Lemma run_bind_Ok {A B} (m : M A) (f : A → M B) nb nb' a :
  m nb = (nb', Ok a) → (m ≫= f) nb = f a nb'.
Proof. intros Hm. by rewrite run_bind, Hm. Qed.

Lemma run_bind_Raise {A B} (m : M A) (f : A → M B) nb nb' e :
  m nb = (nb', Raise e) → (m ≫= f) nb = (nb', Raise e).
Proof. intros Hm. by rewrite run_bind, Hm. Qed.

Lemma run_call {A} ev (answer : list entry → result A) nb :
  call ev answer nb
  = (record (mkEntry ev (error_of (answer (trace nb)))) nb, answer (trace nb)).
Proof. reflexivity. Qed.

Lemma requests_trace {A} (m : M A) nb evs :
  trace (m nb).1 = trace nb ++ evs → requests m nb = evs.
Proof. intros Ht. unfold requests. by rewrite Ht, drop_app_length. Qed.

(** *** Exceptions propagate *)

Lemma propagating_ret {A} (a : A) : propagating (mret a).
Proof. intros nb. exists []. simpl. by rewrite app_nil_r. Qed.

Lemma propagating_lift {A} (r : result A) :
  (∀ e, r = Raise e → python_error e) → propagating (lift r).
Proof.
  intros Hr nb. exists []. simpl. rewrite app_nil_r. split; [done|].
  destruct r as [a|e]; [done|]. exists []. split; [done|]. left. auto.
Qed.

Lemma propagating_load {A} var (field : notebook → option A) :
  propagating (load var field).
Proof.
  intros nb. exists []. simpl. rewrite app_nil_r. split; [done|].
  destruct (field nb); [done|]. exists []. split; [done|]. by left.
Qed.

Lemma propagating_store_proper_nouns v : propagating (store_proper_nouns v).
Proof. intros nb. exists []. simpl. by rewrite app_nil_r. Qed.

Lemma propagating_store_vector_db v : propagating (store_vector_db v).
Proof. intros nb. exists []. simpl. by rewrite app_nil_r. Qed.

Lemma propagating_store_query v : propagating (store_query v).
Proof. intros nb. exists []. simpl. by rewrite app_nil_r. Qed.

Lemma propagating_call {A} ev (answer : list entry → result A) :
  propagating (call ev answer).
Proof.
  intros nb. eexists. split; [reflexivity|]. simpl.
  destruct (answer (trace nb)) as [a|e]; simpl.
  - by repeat constructor.
  - exists []. split; [done|]. right. by exists ev.
Qed.

Lemma propagating_bind {A B} (m : M A) (f : A → M B) :
  propagating m → (∀ a, propagating (f a)) → propagating (m ≫= f).
Proof.
  intros Hm Hf nb. rewrite run_bind.
  destruct (Hm nb) as (evs & Htrace & Hres).
  destruct (m nb) as [nb' [a|e]]; simpl in *.
  - destruct (Hf a nb') as (evs' & Htrace' & Hres').
    exists (evs ++ evs'). split; [by rewrite Htrace', Htrace, app_assoc|].
    destruct ((f a nb').2) as [b|e].
    + by apply Forall_app.
    + destruct Hres' as (before & Hbefore & [[-> Hpy]|[ev ->]]).
      * exists (evs ++ before). split; [by apply Forall_app|]. by left.
      * exists (evs ++ before). split; [by apply Forall_app|]. right.
        exists ev. by rewrite app_assoc.
  - by exists evs.
Qed.

Lemma propagating_pipe {A B C} (a : A → M B) (b : B → M C) x :
  propagating (a x) → (∀ y, propagating (b y)) → propagating (pipe a b x).
Proof. apply propagating_bind. Qed.

Lemma propagating_unhandled {A} (m : M A) : propagating m → unhandled m.
Proof.
  intros Hm nb en e Hin Hfail.
  destruct (Hm nb) as (evs & Htrace & Hres).
  unfold outcome. rewrite (requests_trace _ _ _ Htrace) in *.
  assert (∀ l, Forall succeeded l → en ∉ l) as Hnot.
  { intros l Hl Hen. rewrite Forall_forall in Hl.
    specialize (Hl _ Hen). unfold succeeded in Hl. congruence. }
  destruct ((m nb).2) as [a|e'].
  - by destruct (Hnot _ Hres).
  - destruct Hres as (before & Hbefore & [[-> _]|[ev ->]]).
    + by destruct (Hnot _ Hbefore).
    + apply elem_of_app in Hin as [Hin|Hin]; [by destruct (Hnot _ Hbefore)|].
      apply list_elem_of_singleton in Hin as ->. simpl in Hfail.
      injection Hfail as ->. split; [done|]. apply last_snoc.
Qed.

(** *** Variables *)

Lemma reads_only_ret {A} (a : A) : reads_only (mret a).
Proof. done. Qed.

Lemma reads_only_lift {A} (r : result A) : reads_only (lift r).
Proof. done. Qed.

Lemma reads_only_load {A} var (field : notebook → option A) :
  reads_only (load var field).
Proof. done. Qed.

Lemma reads_only_call {A} ev (answer : list entry → result A) :
  reads_only (call ev answer).
Proof. done. Qed.

Lemma reads_only_bind {A B} (m : M A) (f : A → M B) :
  reads_only m → (∀ a, reads_only (f a)) → reads_only (m ≫= f).
Proof.
  intros Hm Hf nb. rewrite run_bind. specialize (Hm nb).
  destruct (m nb) as [nb' [a|e]]; simpl in *; [|done].
  by rewrite Hf.
Qed.

Lemma reads_only_pipe {A B C} (a : A → M B) (b : B → M C) x :
  reads_only (a x) → (∀ y, reads_only (b y)) → reads_only (pipe a b x).
Proof. apply reads_only_bind. Qed.

(** A statement [x = e] whose right-hand side assigns nothing: when it
    raises, it is [e] that raised, before the assignment. *)
Lemma failing_assignment {A B} (m : M A) (f : A → M B) :
  reads_only m → (∀ a, never_raises (f a)) →
  failing_leaves_variables (m ≫= f).
Proof.
  intros Hm Hf nb e. unfold outcome. rewrite run_bind. specialize (Hm nb).
  destruct (m nb) as [nb' [a|e']]; simpl in *; [|done].
  destruct (Hf a nb') as [b Hb]. congruence.
Qed.

Lemma failing_reads_only {A} (m : M A) :
  reads_only m → failing_leaves_variables m.
Proof. intros Hm nb e _. apply Hm. Qed.

End MonadFacts.

Create HintDb propagating.
Create HintDb reads_only.

#[global] Hint Resolve propagating_ret propagating_load propagating_call
  propagating_store_proper_nouns propagating_store_vector_db
  propagating_store_query : propagating.
#[global] Hint Resolve reads_only_ret reads_only_lift reads_only_load
  reads_only_call : reads_only.

(** Goals about a program built from [≫=], [pipe], [call], [load] and the
    stores: split along the binds; what is left are the side conditions on
    [lift]. *)
Ltac propagate :=
  repeat first
    [ solve [eauto with propagating]
    | progress intros
    | apply propagating_bind
    | apply propagating_pipe ].

Ltac read_only :=
  repeat first
    [ solve [eauto with reads_only]
    | progress intros
    | apply reads_only_bind
    | apply reads_only_pipe ].

(** ** [query_as_list] *)

Section QueryAsListFacts.
Context `{External}.

Lemma mapM_cons {A B} (f : A → result B) x l :
  mapM f (x :: l) = (y ← f x; k ← mapM f l; mret (y :: k)).
Proof. reflexivity. Qed.

Lemma mapM_Raise {A B} (f : A → result B) l e :
  mapM f l = Raise e → ∃ x, x ∈ l ∧ f x = Raise e.
Proof.
  induction l as [|x l IH]; [done|]. rewrite mapM_cons.
  destruct (f x) as [y|e'] eqn:Hx; simpl.
  - destruct (mapM f l) as [k|e'] eqn:Hl; simpl; [done|].
    intros [= ->]. destruct (IH eq_refl) as (x' & Hin & Hx').
    exists x'. split; [by right | done].
  - intros [= ->]. exists x. split; [by left | done].
Qed.

Lemma flatten_truthy_tuples (rows : list (list pyval)) :
  flatten_truthy (map PyTuple rows)
  = Ok (filter (λ el, truthy el = true) (concat rows)).
Proof.
  induction rows as [|row rows IH]; [done|].
  simpl. rewrite IH. simpl. by rewrite filter_app.
Qed.

Lemma flatten_truthy_Raise rows e : flatten_truthy rows = Raise e → e = TypeError.
Proof.
  induction rows as [|sub rows IH]; [done|]. simpl.
  destruct sub; simpl; try (by intros [= <-]);
    destruct (flatten_truthy rows); simpl; try done;
    intros [= <-]; by apply IH.
Qed.

Lemma clean_Raise el e : clean el = Raise e → e = TypeError.
Proof. destruct el; simpl; congruence. Qed.

Lemma rows_as_list_Raise parsed e : rows_as_list parsed = Raise e → python_error e.
Proof.
  unfold rows_as_list. intros Hr.
  assert (e = TypeError) as ->; [|done].
  destruct (py_iter parsed) as [rows|e'] eqn:Hiter; simpl in Hr.
  - destruct (flatten_truthy rows) as [els|e'] eqn:Hflat; simpl in Hr.
    + apply mapM_Raise in Hr as (el & _ & Hel). by apply clean_Raise in Hel.
    + injection Hr as <-. by apply flatten_truthy_Raise in Hflat.
  - injection Hr as <-. destruct parsed; simpl in Hiter; congruence.
Qed.

Lemma mapM_clean_Ok els out :
  mapM clean els = Ok out →
  ∃ strings, els = map PyStr strings
             ∧ out = map (λ s, strip (re_sub_digits s)) strings.
Proof.
  revert out. induction els as [|el els IH]; intros out.
  - intros [= <-]. by exists [].
  - rewrite mapM_cons. destruct el as [| | |s| |]; simpl; try done.
    destruct (mapM clean els) as [out'|] eqn:Hrest; simpl; [|done].
    intros [= <-]. destruct (IH _ eq_refl) as (strings & -> & ->).
    by exists (s :: strings).
Qed.

Lemma mapM_clean_strings strings :
  mapM clean (map PyStr strings)
  = Ok (map (λ s, strip (re_sub_digits s)) strings).
Proof.
  induction strings as [|s strings IH]; [done|].
  change (map PyStr (s :: strings)) with (PyStr s :: map PyStr strings).
  rewrite mapM_cons, IH. reflexivity.
Qed.

Lemma filter_truthy_strings (els : list pyval) :
  Forall (λ el, truthy el = true → ∃ s, el = PyStr s) els →
  ∃ strings, filter (λ el, truthy el = true) els = map PyStr strings.
Proof.
  induction 1 as [|el els Hel _ [strings IH]]; [by exists []|].
  rewrite filter_cons. case_decide as Ht.
  - destruct (Hel Ht) as [s ->]. exists (s :: strings). simpl. by rewrite IH.
  - by exists strings.
Qed.

(** The outcome of [query_as_list] is a function of what [db.run] answers. *)
Lemma query_as_list_outcome (db : world) sql nb :
  outcome (query_as_list db sql) nb
  = (res ← db_run db (trace nb) sql; parsed ← literal_eval res; rows_as_list parsed).
Proof.
  unfold outcome, query_as_list. rewrite run_bind, run_call.
  destruct (db_run db (trace nb) sql) as [res|e]; [|done]. simpl.
  by destruct (literal_eval res).
Qed.

Lemma rows_as_list_tuples rows :
  rows_as_list (PyList (map PyTuple rows))
  = mapM clean (filter (λ el, truthy el = true) (concat rows)).
Proof. unfold rows_as_list. simpl. by rewrite flatten_truthy_tuples. Qed.

Lemma query_as_list_propagating (db : world) sql :
  propagating (query_as_list db sql).
Proof.
  unfold query_as_list. propagate.
  apply propagating_lift, rows_as_list_Raise.
Qed.

Lemma query_as_list_reads_only (db : world) sql : reads_only (query_as_list db sql).
Proof. unfold query_as_list. read_only. Qed.

End QueryAsListFacts.

Lemma ascii_setting_laws : @ExternalLaws ascii_setting.
Proof.
  split.
  - intros c. simpl. unfold ascii_word. by intros ->.
  - intros c. simpl. destruct c as [[] [] [] [] [] [] [] []]; by vm_compute.
  - simpl. apply _.
  - simpl. apply _.
Qed.

(** C9: on a result that parses as a list of tuples, [query_as_list] first
    drops the falsy elements and then erases the standalone digit runs and
    strips; every string it returns has no whitespace at either end and no
    standalone digit run, and a truthy string made of digits only comes out
    as the empty string.  It returns whenever the truthy elements are
    strings. *)
Theorem query_as_list_cleans `{ExternalLaws} (db : world) (sql res : string)
    (rows : list (list pyval)) (nb : notebook) :
  db_run db (trace nb) sql = Ok res →
  literal_eval res = Ok (PyList (map PyTuple rows)) →
  outcome (query_as_list db sql) nb
    = mapM clean (filter (λ el, truthy el = true) (concat rows))
  ∧ (∀ out, outcome (query_as_list db sql) nb = Ok out →
       Forall (λ s, no_outer_whitespace s = true ∧ re_search_digits s = false
                    ∧ ¬ standalone_digits s) out)
  ∧ (Forall (λ el, truthy el = true → ∃ s, el = PyStr s) (concat rows) →
       ∃ out, outcome (query_as_list db sql) nb = Ok out)
  ∧ (∀ s out, outcome (query_as_list db sql) nb = Ok out →
       PyStr s ∈ concat rows → only_digits s = true →
       truthy (PyStr s) = true ∧ "" ∈ out).
Proof.
  intros Hrun Hparse.
  assert (outcome (query_as_list db sql) nb
          = mapM clean (filter (λ el, truthy el = true) (concat rows))) as Hout.
  { rewrite query_as_list_outcome, Hrun. simpl. rewrite Hparse. simpl.
    apply rows_as_list_tuples. }
  split; [exact Hout|]. rewrite Hout. split; [|split].
  - intros out (strings & _ & ->)%mapM_clean_Ok.
    apply Forall_map, Forall_forall. intros s _. split_and!.
    + apply no_outer_whitespace_strip.
    + apply re_search_strip_sub.
    + apply no_standalone_digits_strip_sub.
  - intros (strings & ->)%filter_truthy_strings.
    eexists. apply mapM_clean_strings.
  - intros s out (strings & Hkept & ->)%mapM_clean_Ok Hin Hdigits.
    assert (truthy (PyStr s) = true) as Ht.
    { simpl. unfold only_digits in Hdigits. by apply andb_prop in Hdigits as [-> _]. }
    split; [done|].
    assert (PyStr s ∈ map PyStr strings) as Hs.
    { rewrite <- Hkept. by apply list_elem_of_filter. }
    apply list_elem_of_fmap in Hs as (s' & [= <-] & Hs').
    apply list_elem_of_fmap. exists s. split; [|done].
    symmetry. by apply only_digits_erased.
Qed.

Lemma query_as_list_cleans_witness :
  outcome (query_as_list artist_db "SELECT Name FROM Artist") fresh
  = Ok ["AC/DC"; ""; "Unlimited"]
  ∧ Forall (λ s, no_outer_whitespace s = true ∧ re_search_digits s = false
                 ∧ ¬ standalone_digits s)
      ["AC/DC"; ""; "Unlimited"]
  ∧ "" ∈ ["AC/DC"; ""; "Unlimited"].
Proof.
  destruct (query_as_list_cleans (H0 := ascii_setting_laws) artist_db
              "SELECT Name FROM Artist"
              "[('AC/DC',), (None,), ('',), ('1999',), ('2 Unlimited',)]"
              [[PyStr "AC/DC"]; [PyNone]; [PyStr ""]; [PyStr "1999"];
               [PyStr "2 Unlimited"]]
              fresh eq_refl eq_refl) as (Hout & Hclean & _ & Hdigits).
  split; [by rewrite Hout|].
  split; [by apply Hclean; rewrite Hout|].
  apply (Hdigits "1999"); [by rewrite Hout| |].
  - repeat constructor.
  - reflexivity.
Defined.

Example query_as_list_rejects_a_number :
  outcome (query_as_list numbered_db "SELECT * FROM Artist") fresh = Raise TypeError.
Proof. reflexivity. Qed.

(** ** Chains and cells: no handler, no assignment on the way *)

Section ChainFacts.
Context `{External}.

Lemma itemgetter_Raise key d e : itemgetter key d = Raise e → python_error e.
Proof. unfold itemgetter. destruct (d !! key); [done|]. by intros [= <-]. Qed.

Lemma as_str_Raise v e : as_str v = Raise e → python_error e.
Proof. destruct v; simpl; try done; by intros [= <-]. Qed.

Lemma as_str_list_Raise v e : as_str_list v = Raise e → python_error e.
Proof.
  destruct v; simpl; try (by intros [= <-]);
    intros (x & _ & Hx)%mapM_Raise; by apply as_str_Raise in Hx.
Qed.

Lemma as_str_list_py_strs l : as_str_list (py_strs l) = Ok l.
Proof.
  unfold py_strs. simpl. induction l as [|s l IH]; [done|].
  change (map PyStr (s :: l)) with (PyStr s :: map PyStr l).
  rewrite mapM_cons, IH. reflexivity.
Qed.

Lemma table_names_to_use_Raise x e : table_names_to_use x = Raise e → python_error e.
Proof.
  unfold table_names_to_use. destruct (x !! "table_names_to_use") as [v|]; [|done].
  destruct (as_str_list v) eqn:Hv; simpl; [done|].
  intros [= <-]. by apply as_str_list_Raise in Hv.
Qed.

Lemma format_segment_Raise d seg e : format_segment d seg = Raise e → python_error e.
Proof.
  destruct seg as [text|v]; simpl; [done|].
  destruct (d !! v) as [[]|]; try done. by intros [= <-].
Qed.

Lemma format_prompt_Raise template d e :
  format_prompt template d = Raise e → python_error e.
Proof.
  intros (msg & _ & Hmsg)%mapM_Raise. unfold format_message in Hmsg.
  destruct (mapM (format_segment d) msg.2) eqn:Hsegs; simpl in Hmsg; [done|].
  injection Hmsg as <-.
  apply mapM_Raise in Hsegs as (seg & _ & Hseg). by apply format_segment_Raise in Hseg.
Qed.

Hint Resolve query_as_list_propagating : propagating.
Hint Resolve query_as_list_reads_only : reads_only.
Hint Extern 1 (propagating (lift _)) =>
  apply propagating_lift;
  eauto using itemgetter_Raise, as_str_Raise, table_names_to_use_Raise,
    format_prompt_Raise : propagating.

Lemma from_texts_propagating w texts : propagating (from_texts w texts).
Proof. unfold from_texts. propagate. Qed.

Lemma retriever_propagating w question : propagating (retriever w question).
Proof. unfold retriever. propagate. Qed.

Lemma table_chain_propagating w x : propagating (table_chain w x).
Proof. unfold table_chain, category_chain. propagate. Qed.

Lemma create_sql_query_chain_propagating w prompt x :
  propagating (create_sql_query_chain w prompt x).
Proof. unfold create_sql_query_chain. propagate. Qed.

Lemma retriever_chain_propagating w x : propagating (retriever_chain w x).
Proof. unfold retriever_chain. propagate. Qed.

Hint Resolve from_texts_propagating retriever_propagating table_chain_propagating
  create_sql_query_chain_propagating retriever_chain_propagating : propagating.

Lemma full_chain_propagating w x : propagating (full_chain w x).
Proof. unfold full_chain, assign. propagate. Qed.

Lemma chain_propagating w x : propagating (chain w x).
Proof. unfold chain, query_chain, assign. propagate. Qed.

Lemma assign_query_propagating generate :
  propagating generate → propagating (assign_query generate).
Proof. intros Hg. unfold assign_query. propagate. Qed.

Lemma run_query_propagating w : propagating (run_query w).
Proof. unfold run_query. propagate. Qed.

Lemma from_texts_reads_only w texts : reads_only (from_texts w texts).
Proof. unfold from_texts. read_only. Qed.

Lemma retriever_reads_only w question : reads_only (retriever w question).
Proof. unfold retriever. read_only. Qed.

Lemma table_chain_reads_only w x : reads_only (table_chain w x).
Proof. unfold table_chain, category_chain. read_only. Qed.

Lemma create_sql_query_chain_reads_only w prompt x :
  reads_only (create_sql_query_chain w prompt x).
Proof. unfold create_sql_query_chain. read_only. Qed.

Hint Resolve from_texts_reads_only retriever_reads_only table_chain_reads_only
  create_sql_query_chain_reads_only : reads_only.

Lemma full_chain_reads_only w x : reads_only (full_chain w x).
Proof. unfold full_chain, assign. read_only. Qed.

Lemma chain_reads_only w x : reads_only (chain w x).
Proof. unfold chain, query_chain, assign, retriever_chain. read_only. Qed.

Lemma never_raises_store_then {A} (store : M unit) (a : A) :
  (∀ nb, (store nb).2 = Ok ()) → never_raises (store;; mret a).
Proof.
  intros Hs nb. exists a. rewrite run_bind. specialize (Hs nb).
  destruct (store nb) as [nb' r]. simpl in Hs. by subst r.
Qed.

Lemma assign_query_failing generate :
  reads_only generate → failing_leaves_variables (assign_query generate).
Proof.
  intros Hg. unfold assign_query. apply failing_assignment; [done|].
  intros q. by apply never_raises_store_then.
Qed.

Lemma assign_proper_nouns_failing w sql :
  failing_leaves_variables (assign_proper_nouns w sql).
Proof.
  unfold assign_proper_nouns. apply failing_assignment.
  - apply query_as_list_reads_only.
  - intros nouns nb. by exists ().
Qed.

Lemma extend_proper_nouns_failing w sql :
  failing_leaves_variables (extend_proper_nouns w sql).
Proof.
  unfold extend_proper_nouns. intros nb e. unfold outcome.
  rewrite !run_bind. unfold load. cbn beta iota.
  destruct (proper_nouns nb) as [nouns|]; [|done].
  apply (failing_assignment (query_as_list w sql)
           (λ more, store_proper_nouns (nouns ++ more))).
  - apply query_as_list_reads_only.
  - intros more nb'. by exists ().
Qed.

Lemma cell11_failing w : failing_leaves_variables (cell11 w).
Proof.
  unfold cell11. intros nb e. unfold outcome.
  rewrite !run_bind. unfold load. cbn beta iota.
  destruct (proper_nouns nb) as [nouns|]; [|done].
  apply (failing_assignment (from_texts w nouns) store_vector_db).
  - apply from_texts_reads_only.
  - intros index nb'. by exists ().
Qed.

Lemma run_query_failing w : failing_leaves_variables (run_query w).
Proof. apply failing_reads_only. unfold run_query. read_only. Qed.

End ChainFacts.

#[global] Hint Resolve query_as_list_propagating from_texts_propagating
  retriever_propagating table_chain_propagating create_sql_query_chain_propagating
  retriever_chain_propagating full_chain_propagating chain_propagating
  assign_query_propagating run_query_propagating : propagating.

(** ** Error handling *)

Example db_run_failure_in_cell10 :
  outcome (cell10 album_query_fails) fresh = Raise (LibraryError "OperationalError")
  ∧ proper_nouns (cell10 album_query_fails fresh).1 = Some ["Audioslave"]
  ∧ map request (requests (cell10 album_query_fails) fresh)
    = [DbRun "SELECT Name FROM Artist"; LiteralEval "[('Audioslave',)]";
       DbRun "SELECT Title FROM Album"].
Proof. by vm_compute. Qed.

(** C4: nothing in the notebook handles an exception.  In every operation a
    request that fails (a query, the parse of its result, a chat or embedding
    request) is the last thing the operation does and its exception is the
    operation's outcome, unchanged; and a statement that raises leaves every
    variable as it was. *)
Theorem failures_propagate_unhandled `{External} (w : world) (sql question : string) :
  (unhandled (query_as_list w sql) ∧ unhandled (cell10 w) ∧ unhandled (cell11 w)
   ∧ unhandled (cell8 w question) ∧ unhandled (cell9 w)
   ∧ unhandled (cell13 w question) ∧ unhandled (cell14 w question))
  ∧ (∀ nb e, db_run w (trace nb) sql = Raise e →
       outcome (query_as_list w sql) nb = Raise e)
  ∧ (∀ nb res e, db_run w (trace nb) sql = Ok res → literal_eval res = Raise e →
       outcome (query_as_list w sql) nb = Raise e)
  ∧ (∀ nb q e, query nb = Some q → db_run w (trace nb) q = Raise e →
       outcome (cell9 w) nb = Raise e)
  ∧ (failing_leaves_variables (query_as_list w sql)
     ∧ failing_leaves_variables (assign_proper_nouns w sql)
     ∧ failing_leaves_variables (extend_proper_nouns w sql)
     ∧ failing_leaves_variables (cell11 w)
     ∧ failing_leaves_variables (cell8 w question)
     ∧ failing_leaves_variables (cell9 w)
     ∧ failing_leaves_variables
         (assign_query (query_chain w (<["proper_nouns" := PyStr ""]>
                                         {["question" := PyStr question]})))
     ∧ failing_leaves_variables (assign_query (chain w {["question" := PyStr question]}))).
Proof.
  split; [|split; [|split; [|split]]].
  - split_and!; apply propagating_unhandled;
      unfold cell10, assign_proper_nouns, extend_proper_nouns, cell11, cell8,
        cell9, cell13, cell14, query_chain;
      propagate.
  - intros nb e Hrun. by rewrite query_as_list_outcome, Hrun.
  - intros nb res e Hrun Hparse.
    rewrite query_as_list_outcome, Hrun. simpl. by rewrite Hparse.
  - intros nb q e Hq Hrun. unfold outcome, cell9, run_query.
    rewrite run_bind. unfold load. rewrite Hq. by rewrite run_call, Hrun.
  - split_and!.
    + apply failing_reads_only, query_as_list_reads_only.
    + apply assign_proper_nouns_failing.
    + apply extend_proper_nouns_failing.
    + apply cell11_failing.
    + apply assign_query_failing, full_chain_reads_only.
    + apply run_query_failing.
    + apply assign_query_failing, create_sql_query_chain_reads_only.
    + apply assign_query_failing, chain_reads_only.
Qed.

(** ** Duplicates among the proper nouns *)

(** C3 (the code at an input where it departs from the claim): the list that
    cell 11 hands to the vector store holds a string twice, once because an
    artist and an album share a name, once because two album titles differ in
    a number that [query_as_list] erases. *)
Theorem proper_nouns_duplicates :
  proper_nouns ((cell10 audioslave_db;; cell11 audioslave_db) fresh).1
    = Some ["Audioslave"; "Audioslave"; "Rock"]
  ∧ last (map request (requests (cell10 audioslave_db;; cell11 audioslave_db) fresh))
    = Some (EmbedDocuments ["Audioslave"; "Audioslave"; "Rock"])
  ∧ (map fst <$> vector_db ((cell10 audioslave_db;; cell11 audioslave_db) fresh).1)
    = Some ["Audioslave"; "Audioslave"; "Rock"]
  ∧ ¬ NoDup ["Audioslave"; "Audioslave"; "Rock"]
  ∧ outcome (query_as_list volumes_db "SELECT Title FROM Album") fresh
    = Ok ["Vol"; "Vol"]
  ∧ ¬ NoDup ["Vol"; "Vol"].
Proof.
  split; [by vm_compute|]. split; [by vm_compute|]. split; [by vm_compute|].
  split; [|split; [by vm_compute|]].
  - intros Hnd. apply NoDup_cons in Hnd as [Hnot _]. apply Hnot. by left.
  - intros Hnd. apply NoDup_cons in Hnd as [Hnot _]. apply Hnot. by left.
Qed.

(** ** Retrieval *)

Section RetrievalFacts.
Context `{ExternalLaws}.

#[local] Instance closer_total q : Total (closer q).
Proof. intros e1 e2. unfold closer. apply (total score_le). Qed.

#[local] Instance closer_trans q : Transitive (closer q).
Proof. intros e1 e2 e3. unfold closer. apply transitivity. Qed.

Lemma nearest_length index q k :
  length (nearest index q k) = min k (length index).
Proof.
  unfold nearest. rewrite length_take.
  by rewrite (Permutation_length (merge_sort_Permutation (closer q) index)).
Qed.

(** The [k] entries returned are at least as close to the query as every
    entry that is left out. *)
Lemma nearest_closest index q k :
  ∃ others, nearest index q k ++ others ≡ₚ index
            ∧ ∀ a b, a ∈ nearest index q k → b ∈ others → closer q a b.
Proof.
  exists (drop k (merge_sort (closer q) index)). unfold nearest. split.
  - rewrite take_drop. apply merge_sort_Permutation.
  - intros a b Ha Hb.
    apply (StronglySorted_app_1_elem_of (closer q)
             (take k (merge_sort (closer q) index))
             (drop k (merge_sort (closer q) index)) a b); [|done|done].
    rewrite take_drop. apply (StronglySorted_merge_sort (closer q)).
Qed.

Lemma nearest_from_index index q k e : e ∈ nearest index q k → e ∈ index.
Proof.
  unfold nearest. intros He%subseteq_take.
  by rewrite (merge_sort_Permutation (closer q) index) in He.
Qed.

End RetrievalFacts.

Section RetrieverRuns.
Context `{External}.

Lemma retriever_run w question nb index q :
  vector_db nb = Some index →
  embed_query w (trace nb) question = Ok q →
  retriever w question nb
  = (record (mkEntry (EmbedQuery question) None) nb,
     Ok (similarity_search index q search_k)).
Proof.
  intros Hindex Hq. unfold retriever.
  rewrite run_bind. unfold load. rewrite Hindex.
  by rewrite run_bind, run_call, Hq.
Qed.

Lemma retriever_chain_run w question nb index q :
  vector_db nb = Some index →
  embed_query w (trace nb) question = Ok q →
  retriever_chain w {["question" := PyStr question]} nb
  = (record (mkEntry (EmbedQuery question) None) nb,
     Ok (join_docs (similarity_search index q search_k))).
Proof.
  intros Hindex Hq. unfold retriever_chain, pipe, retriever.
  unfold mbind, M_bind, lift, load, call, itemgetter.
  rewrite lookup_singleton_eq. cbn beta iota. rewrite Hindex.
  cbn beta iota delta [as_str]. rewrite Hq. reflexivity.
Qed.

Lemma chain_run w question nb index q :
  vector_db nb = Some index →
  embed_query w (trace nb) question = Ok q →
  chain w {["question" := PyStr question]} nb
  = query_chain w
      (<["proper_nouns" := PyStr (join_docs (similarity_search index q search_k))]>
         {["question" := PyStr question]})
      (record (mkEntry (EmbedQuery question) None) nb).
Proof.
  intros Hindex Hq. unfold chain, pipe, assign.
  rewrite !run_bind. by rewrite (retriever_chain_run _ _ _ _ _ Hindex Hq).
Qed.

(** What the model is sent when the prompt of cell 12 is filled in. *)
Lemma proper_nouns_prompt_format x question table_info nouns :
  x !! "proper_nouns" = Some (PyStr nouns) →
  format_prompt proper_nouns_prompt (prompt_variables x (PyStr question) table_info)
  = Ok [("system",
         system_lead +:+ default_top_k +:+ system_table_info +:+ table_info
           +:+ system_values +:+ nouns +:+ nl);
        ("human", question)].
Proof.
  intros Hnouns. unfold format_prompt, proper_nouns_prompt, prompt_variables.
  rewrite !mapM_cons. unfold format_message. cbn [fst snd].
  rewrite !mapM_cons. unfold format_segment.
  simplify_map_eq. reflexivity.
Qed.

End RetrieverRuns.

(** C7: the retrieval step returns the [15] entries of the index nearest to
    the question ([15] itself when the index holds that many, never more),
    no entry left out is nearer than one returned, and the prompt of the
    query-generation step receives exactly these, joined by newlines. *)
Theorem retrieval_returns_nearest_15 `{ExternalLaws} (w : world) (question : string)
    (nb : notebook) (index : list (string * vec)) (q : vec) :
  vector_db nb = Some index →
  embed_query w (trace nb) question = Ok q →
  ∃ docs,
    outcome (retriever w question) nb = Ok docs
    ∧ docs = map (λ e, mkDocument e.1) (nearest index q 15)
    ∧ length docs = min 15 (length index)
    ∧ length docs ≤ 15
    ∧ (∀ e, e ∈ nearest index q 15 → e ∈ index)
    ∧ (∃ others, nearest index q 15 ++ others ≡ₚ index
                 ∧ ∀ a b, a ∈ nearest index q 15 → b ∈ others → closer q a b)
    ∧ outcome (retriever_chain w {["question" := PyStr question]}) nb
      = Ok (join_docs docs)
    ∧ chain w {["question" := PyStr question]} nb
      = query_chain w
          (<["proper_nouns" := PyStr (join_docs docs)]> {["question" := PyStr question]})
          (record (mkEntry (EmbedQuery question) None) nb)
    ∧ (∀ table_info,
         format_prompt proper_nouns_prompt
           (prompt_variables
              (<["proper_nouns" := PyStr (join_docs docs)]> {["question" := PyStr question]})
              (PyStr question) table_info)
         = Ok [("system",
                system_lead +:+ default_top_k +:+ system_table_info +:+ table_info
                  +:+ system_values +:+ join_docs docs +:+ nl);
               ("human", question)]).
Proof.
  intros Hindex Hq. exists (similarity_search index q search_k).
  assert (length (similarity_search index q search_k) = min 15 (length index)) as Hlen.
  { unfold similarity_search. rewrite length_map. apply nearest_length. }
  split_and!.
  - unfold outcome. by rewrite (retriever_run _ _ _ _ _ Hindex Hq).
  - reflexivity.
  - exact Hlen.
  - rewrite Hlen. lia.
  - apply nearest_from_index.
  - apply nearest_closest.
  - unfold outcome. by rewrite (retriever_chain_run _ _ _ _ _ Hindex Hq).
  - by apply chain_run.
  - intros table_info. apply proper_nouns_prompt_format. by simplify_map_eq.
Qed.

Lemma retrieval_returns_nearest_15_witness :
  ∃ docs, outcome (retriever length_world "Led Zeppelin") indexed_notebook = Ok docs
          ∧ length docs = 15.
Proof.
  destruct (retrieval_returns_nearest_15 (H0 := ascii_setting_laws) length_world
              "Led Zeppelin" indexed_notebook
              (zip seventeen_artists
                 (map (λ text, [Z.of_nat (String.length text)]) seventeen_artists))
              [12%Z] eq_refl eq_refl)
    as (docs & Hout & _ & Hlen & _).
  exists docs. split; [exact Hout | exact Hlen].
Defined.

Example retrieval_leaves_out_the_farthest :
  outcome (retriever_chain length_world {["question" := PyStr "Led Zeppelin"]})
    indexed_notebook
  = Ok (String.concat nl
          ["Billy Cobham"; "Cidade Negra"; "Elis Regina"; "Black Sabbath";
           "Chico Buarque"; "Deep Purple"; "Def Leppard"; "Audioslave"; "Body Count";
           "Caetano Veloso"; "Aerosmith"; "Alice In Chains"; "Buddy Guy"; "BackBeat";
           "Alanis Morissette"]).
Proof. vm_compute. reflexivity. Qed.

(** ** The pipeline of cells 7 to 9 *)

Ltac close_trace := simpl; rewrite <- ?app_assoc; reflexivity.

Section PipelineFacts.
Context `{External}.

Lemma category_prompt_format question :
  format_prompt category_prompt {["input" := PyStr question]}
  = Ok (category_messages question).
Proof.
  unfold format_prompt, category_prompt. rewrite !mapM_cons.
  unfold format_message. cbn [fst snd]. rewrite !mapM_cons.
  unfold format_segment. by simplify_map_eq.
Qed.

Lemma table_chain_run w question nb :
  table_chain w {["question" := PyStr question]} nb
  = match llm_with_tools w (trace nb) (category_messages question) with
    | Ok categories =>
        (record (mkEntry (ChatTools (category_messages question)) None) nb,
         Ok (get_tables categories))
    | Raise e =>
        (record (mkEntry (ChatTools (category_messages question)) (Some e)) nb,
         Raise e)
    end.
Proof.
  unfold table_chain, category_chain, pipe.
  unfold mbind, M_bind, mret, M_ret, lift, call, itemgetter.
  rewrite lookup_singleton_eq. cbn beta iota.
  rewrite category_prompt_format. cbn beta iota.
  by destruct (llm_with_tools w (trace nb) (category_messages question)).
Qed.

(** Query generation starts in the state that table selection left, with
    its result under [table_names_to_use]; it does not start when table
    selection raised. *)
Lemma full_chain_run w x nb :
  full_chain w x nb
  = match table_chain w x nb with
    | (nb1, Ok tables) =>
        create_sql_query_chain w default_prompt
          (<["table_names_to_use" := py_strs tables]> x) nb1
    | (nb1, Raise e) => (nb1, Raise e)
    end.
Proof.
  unfold full_chain, pipe, assign. rewrite !run_bind.
  by destruct (table_chain w x nb) as [nb1 [tables|e]].
Qed.

Lemma create_sql_query_chain_run w prompt x nb :
  create_sql_query_chain w prompt x nb
  = match itemgetter "question" x with
    | Raise e => (nb, Raise e)
    | Ok question =>
        match table_names_to_use x with
        | Raise e => (nb, Raise e)
        | Ok names =>
            match db_get_table_info w (trace nb) names with
            | Raise e => (record (mkEntry (DbTableInfo names) (Some e)) nb, Raise e)
            | Ok table_info =>
                let nb1 := record (mkEntry (DbTableInfo names) None) nb in
                match format_prompt prompt (prompt_variables x question table_info) with
                | Raise e => (nb1, Raise e)
                | Ok messages =>
                    (record (mkEntry (ChatText messages)
                               (error_of (llm w (trace nb1) messages))) nb1,
                     llm w (trace nb1) messages)
                end
            end
        end
    end.
Proof.
  unfold create_sql_query_chain, mbind, M_bind, lift, call.
  destruct (itemgetter "question" x) as [question|e]; [|done].
  destruct (table_names_to_use x) as [names|e]; [|done].
  destruct (db_get_table_info w (trace nb) names) as [table_info|e]; [|done].
  cbn beta iota zeta.
  destruct (format_prompt prompt (prompt_variables x question table_info))
    as [messages|e]; [|done].
  by destruct (llm w _ messages).
Qed.

Lemma requests_run {A} (m : M A) nb nb' r evs :
  m nb = (nb', r) → trace nb' = trace nb ++ evs → requests m nb = evs.
Proof. intros Hm Ht. apply requests_trace. by rewrite Hm. Qed.

Lemma question_after_assign key v question :
  key ≠ "question" →
  itemgetter "question" (<[key := v]> {["question" := PyStr question]})
  = Ok (PyStr question).
Proof. intros Hkey. unfold itemgetter. by simplify_map_eq. Qed.

Lemma table_names_after_assign tables x :
  table_names_to_use (<["table_names_to_use" := py_strs tables]> x)
  = Ok (Some tables).
Proof.
  unfold table_names_to_use. rewrite lookup_insert_eq.
  by rewrite as_str_list_py_strs.
Qed.

Lemma cells_8_9_trace w question nb :
  trace ((cell8 w question;; cell9 w) nb).1
  = trace nb ++ pipeline_requests w question (trace nb).
Proof.
  unfold pipeline_requests, cell8, cell9, assign_query, run_query.
  rewrite !run_bind, full_chain_run, table_chain_run.
  destruct (llm_with_tools w (trace nb) (category_messages question))
    as [categories|e]; [|done].
  rewrite create_sql_query_chain_run.
  rewrite question_after_assign by done.
  rewrite table_names_after_assign.
  cbn [trace record].
  destruct (db_get_table_info _ _ _) as [table_info|e]; [|close_trace].
  cbn beta iota zeta. cbn [trace record].
  destruct (format_prompt _ _) as [generation|e]; [|close_trace].
  destruct (llm w _ generation) as [q|e]; [|close_trace].
  close_trace.
Qed.

(** *** Requests of one kind *)

Lemma footprint_ret P {A} (a : A) : footprint P (mret a).
Proof. intros nb. exists []. simpl. by rewrite app_nil_r. Qed.

Lemma footprint_lift P {A} (r : result A) : footprint P (lift r).
Proof. intros nb. exists []. simpl. by rewrite app_nil_r. Qed.

Lemma footprint_load P {A} var (field : notebook → option A) :
  footprint P (load var field).
Proof. intros nb. exists []. simpl. by rewrite app_nil_r. Qed.

Lemma footprint_call (P : event → Prop) {A} ev (answer : list entry → result A) :
  P ev → footprint P (call ev answer).
Proof. intros Hev nb. eexists. split; [reflexivity|]. by repeat constructor. Qed.

Lemma footprint_bind P {A B} (m : M A) (f : A → M B) :
  footprint P m → (∀ a, footprint P (f a)) → footprint P (m ≫= f).
Proof.
  intros Hm Hf nb. rewrite run_bind.
  destruct (Hm nb) as (evs & Htrace & Hevs).
  destruct (m nb) as [nb' [a|e]]; simpl in *; [|by exists evs].
  destruct (Hf a nb') as (evs' & Htrace' & Hevs').
  exists (evs ++ evs'). split; [by rewrite Htrace', Htrace, app_assoc|].
  by apply Forall_app.
Qed.

Lemma footprint_pipe P {A B C} (a : A → M B) (b : B → M C) x :
  footprint P (a x) → (∀ y, footprint P (b y)) → footprint P (pipe a b x).
Proof. apply footprint_bind. Qed.

End PipelineFacts.

Create HintDb footprint.
#[global] Hint Resolve footprint_ret footprint_lift footprint_load : footprint.
#[global] Hint Extern 1 (footprint _ (call _ _)) =>
  apply footprint_call; exact I : footprint.

Ltac footprints :=
  repeat first
    [ solve [eauto with footprint]
    | progress intros
    | apply footprint_bind
    | apply footprint_pipe ].

(** ** The generated query *)

Section RawOutput.
Context `{External}.

Lemma snoc_eq_nil {A} (pre : list A) a : [] = pre ++ [a] → False.
Proof. by destruct pre. Qed.

Lemma snoc_eq_one {A} (pre : list A) a b : [b] = pre ++ [a] → pre = [] ∧ a = b.
Proof. intros Heq. symmetry in Heq. by apply (app_inj_tail pre [] a b) in Heq. Qed.

Lemma snoc_eq_two {A} (pre : list A) a b c :
  [b; c] = pre ++ [a] → pre = [b] ∧ a = c.
Proof. intros Heq. symmetry in Heq. by apply (app_inj_tail pre [b] a c) in Heq. Qed.

Lemma create_sql_query_chain_raw w prompt x :
  raw_model_output w (create_sql_query_chain w prompt x).
Proof.
  intros nb.
  pose proof (create_sql_query_chain_run w prompt x nb) as Hrun.
  destruct (itemgetter "question" x) as [question|e].
  2:{ rewrite (requests_run _ _ _ _ [] Hrun) by (by rewrite app_nil_r).
      unfold outcome. rewrite Hrun. split; [by intros ??? ?%snoc_eq_nil|done]. }
  destruct (table_names_to_use x) as [names|e].
  2:{ rewrite (requests_run _ _ _ _ [] Hrun) by (by rewrite app_nil_r).
      unfold outcome. rewrite Hrun. split; [by intros ??? ?%snoc_eq_nil|done]. }
  destruct (db_get_table_info w (trace nb) names) as [table_info|e].
  2:{ rewrite (requests_run _ _ _ _ [_] Hrun) by done.
      unfold outcome. rewrite Hrun. split; [|done].
      by intros pre messages f [_ [=]]%snoc_eq_one. }
  cbn zeta in Hrun.
  destruct (format_prompt prompt (prompt_variables x question table_info))
    as [messages|e].
  2:{ rewrite (requests_run _ _ _ _ [_] Hrun) by done.
      unfold outcome. rewrite Hrun. split; [|done].
      by intros pre messages f [_ [=]]%snoc_eq_one. }
  rewrite (requests_run _ _ _ _ [_; _] Hrun) by (simpl; by rewrite <- app_assoc).
  unfold outcome. rewrite Hrun. cbn [snd trace record]. split.
  - by intros pre messages' f [-> [= <- _]]%snoc_eq_two.
  - intros sql Hsql. exists [mkEntry (DbTableInfo names) None], messages.
    rewrite Hsql. by split.
Qed.

(** A stage that asks the model for no text, in front of one whose output
    is the model's text. *)
Lemma raw_model_output_after {A} w (first : M A) (generate : A → M string) :
  footprint not_chat_text first →
  (∀ a, propagating (generate a)) →
  (∀ a, raw_model_output w (generate a)) →
  raw_model_output w (first ≫= generate).
Proof.
  intros Hfirst Hext Hgen nb.
  destruct (Hfirst nb) as (evs & Htrace & Hevs).
  assert (∀ pre messages f, evs ≠ pre ++ [mkEntry (ChatText messages) f]) as Hno.
  { intros pre messages f ->. apply Forall_app in Hevs as [_ Hlast].
    apply Forall_inv in Hlast. exact Hlast. }
  destruct (first nb) as [nb1 [a|e]] eqn:Hrun; simpl in Htrace.
  - destruct (Hgen a nb1) as [Hasked Hout].
    destruct (Hext a nb1) as (evs2 & Htrace2 & _).
    pose proof (requests_trace _ _ _ Htrace2) as Hreq2.
    assert (requests (first ≫= generate) nb = evs ++ evs2) as Hreq.
    { apply requests_trace. rewrite (run_bind_Ok _ _ _ _ _ Hrun).
      by rewrite Htrace2, Htrace, app_assoc. }
    assert (outcome (first ≫= generate) nb = outcome (generate a) nb1) as Hsame.
    { unfold outcome. by rewrite (run_bind_Ok _ _ _ _ _ Hrun). }
    rewrite Hreq, Hsame. rewrite Hreq2 in Hasked, Hout. split.
    + intros pre messages f Heq.
      destruct evs2 as [|en evs2 _] using rev_ind.
      { rewrite app_nil_r in Heq. by destruct (Hno _ _ _ Heq). }
      rewrite app_assoc in Heq. apply app_inj_tail in Heq as [<- ->].
      rewrite (Hasked _ _ _ eq_refl). by rewrite Htrace, app_assoc.
    + intros sql (pre & messages & -> & Hsql)%Hout.
      exists (evs ++ pre), messages. split; [by rewrite app_assoc|].
      by rewrite app_assoc, <- Htrace.
  - assert (requests (first ≫= generate) nb = evs) as Hreq.
    { apply requests_trace. by rewrite (run_bind_Raise _ _ _ _ _ Hrun). }
    rewrite Hreq. unfold outcome. rewrite (run_bind_Raise _ _ _ _ _ Hrun).
    split; [|done]. intros pre messages f Heq. by destruct (Hno _ _ _ Heq).
Qed.

Lemma table_chain_footprint w x : footprint not_chat_text (table_chain w x).
Proof. unfold table_chain, category_chain. footprints. Qed.

Lemma retriever_chain_footprint w x : footprint not_chat_text (retriever_chain w x).
Proof. unfold retriever_chain, retriever. footprints. Qed.

Lemma full_chain_raw w x : raw_model_output w (full_chain w x).
Proof.
  unfold full_chain, pipe. apply raw_model_output_after.
  - unfold assign. footprints.
  - intros a. apply create_sql_query_chain_propagating.
  - intros a. apply create_sql_query_chain_raw.
Qed.

Lemma chain_raw w x : raw_model_output w (chain w x).
Proof.
  unfold chain, pipe. apply raw_model_output_after.
  - unfold assign. footprints.
  - intros a. apply create_sql_query_chain_propagating.
  - intros a. apply create_sql_query_chain_raw.
Qed.

(** [query = m.invoke(...)] followed by [db.run(query)]: the string that is
    run is the one [m] returned. *)
Lemma generated_then_run w (generate : M string) nb sql :
  propagating generate →
  outcome generate nb = Ok sql →
  ∃ f, requests (assign_query generate;; run_query w) nb
       = requests generate nb ++ [mkEntry (DbRun sql) f].
Proof.
  intros Hext Hsql. destruct (Hext nb) as (evs & Htrace & _).
  rewrite (requests_trace _ _ _ Htrace).
  unfold outcome in Hsql. destruct (generate nb) as [nb1 r] eqn:Hrun.
  simpl in Hsql, Htrace. subst r.
  eexists. apply requests_trace.
  unfold assign_query, run_query. rewrite !run_bind, Hrun.
  simpl. rewrite Htrace. by rewrite <- app_assoc.
Qed.

Lemma cell13_echo sql question nb :
  outcome (cell13 (echo_world sql) question) nb = Ok sql.
Proof.
  unfold outcome, cell13, assign_query, run_query, query_chain.
  rewrite !run_bind, create_sql_query_chain_run.
  rewrite question_after_assign by done.
  assert (table_names_to_use
            (<["proper_nouns" := PyStr ""]> {["question" := PyStr question]})
          = Ok None) as ->.
  { unfold table_names_to_use. by simplify_map_eq. }
  cbn [echo_world db_get_table_info]. cbn zeta.
  rewrite proper_nouns_prompt_format with (nouns := "") by by simplify_map_eq.
  reflexivity.
Qed.

End RawOutput.

(** C5: with the chat model as an oracle, the query-construction step returns
    the oracle's text as it is.  For the chain of cell 12 and for the query
    chain alone: when the model was asked, that was the last request and its
    answer (a string or an exception) is the outcome; every string returned
    is such an answer; the chain of cell 12 ends with the query chain, with
    nothing after it; and the string that cells 13 and 14 execute is the one
    returned. *)
Theorem query_is_raw_model_text `{External} (w : world) (x : gmap string pyval)
    (question : string) (nb : notebook) :
  raw_model_output w (query_chain w x)
  ∧ raw_model_output w (chain w x)
  ∧ chain w x nb
    = match assign "proper_nouns"
              (λ x, nouns ← retriever_chain w x; mret (PyStr nouns)) x nb with
      | (nb1, Ok with_nouns) => query_chain w with_nouns nb1
      | (nb1, Raise e) => (nb1, Raise e)
      end
  ∧ (∀ sql, outcome (chain w {["question" := PyStr question]}) nb = Ok sql →
       ∃ f, requests (cell14 w question) nb
            = requests (chain w {["question" := PyStr question]}) nb
              ++ [mkEntry (DbRun sql) f])
  ∧ (∀ sql, outcome (query_chain w (<["proper_nouns" := PyStr ""]>
                                      {["question" := PyStr question]})) nb = Ok sql →
       ∃ f, requests (cell13 w question) nb
            = requests (query_chain w (<["proper_nouns" := PyStr ""]>
                                         {["question" := PyStr question]})) nb
              ++ [mkEntry (DbRun sql) f])
  ∧ outcome (cell13 (echo_world "SELECT 1; DROP TABLE Artist") question) nb
    = Ok "SELECT 1; DROP TABLE Artist".
Proof.
  split_and!.
  - apply create_sql_query_chain_raw.
  - apply chain_raw.
  - reflexivity.
  - intros sql Hsql. apply generated_then_run; [apply chain_propagating | done].
  - intros sql Hsql.
    apply generated_then_run; [apply create_sql_query_chain_propagating | done].
  - apply cell13_echo.
Qed.

(** Membership in an explicit list, case by case; what is left are the
    positions whose entry can be the given one. *)
Ltac list_cases Hin :=
  repeat (apply elem_of_cons in Hin as [Hin|Hin]; [try discriminate Hin|]);
  try (by apply elem_of_nil in Hin).

(** C6: the pipeline is a fixed linear sequence.  In [full_chain] query
    generation starts from the state table selection has left, with its
    result under [table_names_to_use], and not at all when table selection
    raised; over cells 8 and 9 the requests come in the order table selection,
    query generation, execution; the model is asked for a query only after
    table selection has answered, and [db.run] is given only a string that
    query generation has returned just before. *)
Theorem pipeline_is_linear `{External} (w : world) (question : string) (nb : notebook) :
  full_chain w {["question" := PyStr question]} nb
  = match table_chain w {["question" := PyStr question]} nb with
    | (nb1, Ok tables) =>
        create_sql_query_chain w default_prompt
          (<["table_names_to_use" := py_strs tables]> {["question" := PyStr question]})
          nb1
    | (nb1, Raise e) => (nb1, Raise e)
    end
  ∧ requests (cell8 w question;; cell9 w) nb = pipeline_requests w question (trace nb)
  ∧ StronglySorted (λ a b, stage (request a) ≤ stage (request b))
      (requests (cell8 w question;; cell9 w) nb)
  ∧ (∀ generation f,
       mkEntry (ChatText generation) f ∈ requests (cell8 w question;; cell9 w) nb →
       ∃ categories post,
         llm_with_tools w (trace nb) (category_messages question) = Ok categories
         ∧ requests (cell8 w question;; cell9 w) nb
           = mkEntry (ChatTools (category_messages question)) None
             :: mkEntry (DbTableInfo (Some (get_tables categories))) None
             :: mkEntry (ChatText generation) f :: post)
  ∧ (∀ q f,
       mkEntry (DbRun q) f ∈ requests (cell8 w question;; cell9 w) nb →
       ∃ pre generation,
         requests (cell8 w question;; cell9 w) nb
         = pre ++ [mkEntry (ChatText generation) None; mkEntry (DbRun q) f]
         ∧ llm w (trace nb ++ pre) generation = Ok q).
Proof.
  assert (requests (cell8 w question;; cell9 w) nb
          = pipeline_requests w question (trace nb)) as Hreq.
  { apply requests_trace, cells_8_9_trace. }
  split; [apply full_chain_run|]. split; [exact Hreq|].
  rewrite Hreq. unfold pipeline_requests. cbn zeta.
  destruct (llm_with_tools w (trace nb) (category_messages question))
    as [categories|e].
  2:{ split_and!; [repeat constructor|..]; intros ?? Hin; by list_cases Hin. }
  destruct (db_get_table_info w _ (Some (get_tables categories))) as [table_info|e].
  2:{ split_and!; [repeat constructor; simpl; lia|..];
        intros ?? Hin; by list_cases Hin. }
  destruct (format_prompt default_prompt _) as [generation|e].
  2:{ split_and!; [repeat constructor; simpl; lia|..];
        intros ?? Hin; by list_cases Hin. }
  destruct (llm w _ generation) as [q|e] eqn:Hllm.
  2:{ split_and!; [repeat constructor; simpl; lia| |];
        intros ?? Hin; list_cases Hin.
      injection Hin as -> ->. by exists categories, []. }
  split_and!.
  - repeat constructor; simpl; lia.
  - intros generation' f Hin. list_cases Hin.
    injection Hin as -> ->. exists categories. by eexists [_].
  - intros q' f Hin. list_cases Hin. injection Hin as -> ->.
    eexists [_; _], generation. split; [reflexivity|].
    rewrite <- Hllm. f_equal. by rewrite <- app_assoc.
Qed.

Example pipeline_on_a_scripted_world :
  map request (requests (cell8 artist_db "Which genres?";; cell9 artist_db) fresh)
  = [ChatTools (category_messages "Which genres?");
     DbTableInfo (Some music_tables);
     ChatText [("human",
                "Question: Which genres? Tables: Album,Artist,Genre,MediaType,Playlist,PlaylistTrack,Track Limit: 5")];
     DbRun "SELECT Name FROM Artist"].
Proof. vm_compute. reflexivity. Qed.

(** ** Determinism of the local logic *)



(** * Part III: further properties of the notebook's code *)

(** ** [get_tables] *)

Lemma category_tables_length c :
  length (category_tables c)
  = (if is_music c then 7 else 0) + (if is_business c then 4 else 0).
Proof.
  unfold category_tables, is_music, is_business.
  destruct (String.eqb (name c) "Music") eqn:Hm.
  - apply String.eqb_eq in Hm. by rewrite Hm.
  - by destruct (String.eqb (name c) "Business").
Qed.

Lemma music_not_business c : is_music c = true → is_business c = false.
Proof. unfold is_music, is_business. intros Hm%String.eqb_eq. by rewrite Hm. Qed.

Lemma category_tables_music c : is_music c = true → category_tables c = music_tables.
Proof. unfold category_tables, is_music. by intros ->. Qed.

Lemma category_tables_business c :
  is_business c = true → category_tables c = business_tables.
Proof.
  intros Hb. unfold category_tables.
  destruct (String.eqb (name c) "Music") eqn:Hm.
  - apply music_not_business in Hm. congruence.
  - unfold is_business in Hb. by rewrite Hb.
Qed.

Lemma category_tables_unknown c : known_category c = false → category_tables c = [].
Proof.
  unfold known_category, category_tables, is_music, is_business.
  intros [-> ->]%orb_false_elim. done.
Qed.

(** Which names occur in the output. *)
Lemma elem_of_get_tables t categories :
  t ∈ get_tables categories
  ↔ (t ∈ music_tables ∧ Exists (λ c, is_music c = true) categories)
    ∨ (t ∈ business_tables ∧ Exists (λ c, is_business c = true) categories).
Proof.
  rewrite get_tables_flat_map. unfold get_tables_spec.
  induction categories as [|c cs IH]; simpl.
  - split; [by intros ?%elem_of_nil|]. by intros [[_ ?%Exists_nil]|[_ ?%Exists_nil]].
  - rewrite elem_of_app, IH, !Exists_cons. clear IH.
    destruct (is_music c) eqn:Hm.
    { rewrite (category_tables_music _ Hm), (music_not_business _ Hm). naive_solver. }
    destruct (is_business c) eqn:Hb.
    { rewrite (category_tables_business _ Hb). naive_solver. }
    rewrite category_tables_unknown by (unfold known_category; by rewrite Hm, Hb).
    rewrite elem_of_nil. naive_solver.
Qed.

Lemma music_business_disjoint t : t ∈ music_tables → t ∉ business_tables.
Proof.
  unfold music_tables, business_tables. intros Hm Hb.
  repeat (apply elem_of_cons in Hm as [->|Hm];
          [repeat (apply elem_of_cons in Hb as [Hb|Hb]; [discriminate Hb|]);
           by apply elem_of_nil in Hb|]).
  by apply elem_of_nil in Hm.
Qed.

Lemma music_tables_NoDup : NoDup music_tables.
Proof. unfold music_tables. repeat constructor; set_solver. Qed.

Lemma business_tables_NoDup : NoDup business_tables.
Proof. unfold business_tables. repeat constructor; set_solver. Qed.

Lemma filter_nil_not_Exists {A} (P : A → Prop) `{!∀ x, Decision (P x)} (l : list A) :
  length (filter P l) = 0 ↔ ¬ Exists P l.
Proof.
  induction l as [|x l IH]; [rewrite Exists_nil; simpl; naive_solver|].
  rewrite filter_cons, Exists_cons. case_decide; simpl; [naive_solver lia|].
  rewrite IH. naive_solver.
Qed.

(** X1: the output holds seven names for every "Music" element of the input
    and four for every "Business" element, and nothing else. *)
Theorem get_tables_length (categories : list Table) :
  length (get_tables categories)
  = 7 * length (filter (λ c, is_music c = true) categories)
    + 4 * length (filter (λ c, is_business c = true) categories).
Proof.
  rewrite get_tables_flat_map. unfold get_tables_spec.
  induction categories as [|c cs IH]; [done|]. simpl.
  rewrite length_app, IH, category_tables_length, !filter_cons.
  destruct (is_music c) eqn:Hm.
  - rewrite (music_not_business _ Hm).
    rewrite decide_True by done. rewrite decide_False by done. simpl. lia.
  - rewrite (decide_False (P := false = true)) by done.
    destruct (is_business c).
    + rewrite decide_True by done. simpl. lia.
    + rewrite decide_False by done. simpl. lia.
Qed.

(** X2: [get_tables] distributes over the concatenation of inputs: the tables
    for two answers put one after the other are the tables for the first
    followed by the tables for the second. *)
Theorem get_tables_distributes (first second : list Table) :
  get_tables (first ++ second) = get_tables first ++ get_tables second.
Proof.
  rewrite !get_tables_flat_map. unfold get_tables_spec. apply flat_map_app.
Qed.

(** X3: the output is empty exactly when no element of the input is named
    "Music" or "Business" (names are compared as they are, case included). *)
Theorem get_tables_empty_iff (categories : list Table) :
  get_tables categories = []
  ↔ Forall (λ c, known_category c = false) categories.
Proof.
  rewrite get_tables_flat_map. unfold get_tables_spec.
  induction categories as [|c cs IH]; simpl.
  - split; [constructor | done].
  - rewrite Forall_cons, <- IH. split.
    + intros [Hc Hcs]%app_eq_nil. split; [|done].
      unfold known_category. destruct (is_music c) eqn:Hm.
      { by rewrite (category_tables_music _ Hm) in Hc. }
      destruct (is_business c) eqn:Hb; [|done].
      by rewrite (category_tables_business _ Hb) in Hc.
    + intros [Hc ->]. by rewrite (category_tables_unknown _ Hc).
Qed.

(** X4: the output names no table twice exactly when the input holds at most
    one "Music" element and at most one "Business" element. *)
Theorem get_tables_NoDup_iff (categories : list Table) :
  NoDup (get_tables categories)
  ↔ length (filter (λ c, is_music c = true) categories) ≤ 1
    ∧ length (filter (λ c, is_business c = true) categories) ≤ 1.
Proof.
  induction categories as [|c cs IH].
  { split; [simpl; lia | intros _; constructor]. }
  change (c :: cs) with ([c] ++ cs) at 1.
  rewrite get_tables_app, NoDup_app, IH, !filter_cons.
  replace (get_tables [c]) with (category_tables c)
    by (rewrite get_tables_flat_map; simpl; by rewrite app_nil_r).
  destruct (is_music c) eqn:Hm.
  - rewrite (category_tables_music _ Hm), (music_not_business _ Hm).
    rewrite decide_True by done. rewrite decide_False by done. simpl.
    assert ((∀ t, t ∈ music_tables → t ∉ get_tables cs)
            ↔ length (filter (λ c, is_music c = true) cs) = 0) as ->.
    { rewrite filter_nil_not_Exists. split.
      - intros Hdisj Hex. apply (Hdisj "Album"); [by left|].
        apply elem_of_get_tables. left. split; [by left | done].
      - intros Hno t Ht [[_ Hex]|[Hb _]]%elem_of_get_tables; [done|].
        by apply (music_business_disjoint t). }
    pose proof music_tables_NoDup. naive_solver lia.
  - rewrite (decide_False (P := false = true)) by done.
    destruct (is_business c) eqn:Hb.
    + rewrite (category_tables_business _ Hb). rewrite decide_True by done. simpl.
      assert ((∀ t, t ∈ business_tables → t ∉ get_tables cs)
              ↔ length (filter (λ c, is_business c = true) cs) = 0) as ->.
      { rewrite filter_nil_not_Exists. split.
        - intros Hdisj Hex. apply (Hdisj "Customer"); [by left|].
          apply elem_of_get_tables. right. split; [by left | done].
        - intros Hno t Ht [[Hmus _]|[_ Hex]]%elem_of_get_tables; [|done].
          by apply (music_business_disjoint t). }
      pose proof business_tables_NoDup. naive_solver lia.
    + rewrite decide_False by done.
      rewrite category_tables_unknown by (unfold known_category; by rewrite Hm, Hb).
      split; [naive_solver|]. intros ?. split_and!; [apply NoDup_nil_2|set_solver|naive_solver..].
Qed.

(** X5: elements with another name can be dropped from the input beforehand
    without changing the output. *)
Theorem get_tables_ignores_unknown (categories : list Table) :
  get_tables categories
  = get_tables (filter (λ c, known_category c = true) categories).
Proof.
  rewrite !get_tables_flat_map. unfold get_tables_spec.
  induction categories as [|c cs IH]; [done|]. simpl.
  rewrite filter_cons. destruct (known_category c) eqn:Hk.
  - rewrite decide_True by done. simpl. by rewrite IH.
  - rewrite decide_False by done. by rewrite (category_tables_unknown _ Hk).
Qed.

(** X6: reordering the input only reorders the output: the tables selected
    for a permutation of the categories are a permutation of the tables
    selected for the categories. *)
Theorem get_tables_permutation (categories reordered : list Table) :
  categories ≡ₚ reordered → get_tables categories ≡ₚ get_tables reordered.
Proof.
  intros Hperm. rewrite !get_tables_flat_map. unfold get_tables_spec.
  by apply Permutation_flat_map.
Qed.

Lemma get_tables_permutation_witness :
  get_tables [mkTable "Business"; mkTable "Music"]
  ≡ₚ get_tables [mkTable "Music"; mkTable "Business"].
Proof.
  apply (get_tables_permutation [mkTable "Business"; mkTable "Music"]
           [mkTable "Music"; mkTable "Business"]).
  apply perm_swap.
Defined.

(** ** The digit pattern and [strip], without assumptions on the classes *)

Section CleaningMore.
Context `{External}.

Lemma match_digits_boundary_digits s n :
  match_digits_boundary s = Some n →
  n ≤ length s ∧ forallb is_digit (take n s) = true.
Proof.
  revert n. induction s as [|c rest IH]; intros n; simpl; [done|].
  destruct (is_digit c) eqn:Hd; [|done].
  destruct (match_digits_boundary rest) as [m|].
  - intros [= <-]. destruct (IH m eq_refl) as [Hlen Hall].
    split; [lia|]. simpl. by rewrite Hd.
  - destruct (boundary (is_word c) rest); [|done].
    intros [= <-]. split; [lia|]. simpl. by rewrite Hd.
Qed.

(** Whatever the state of the scan, it only deletes digits. *)
Lemma sub_scan_deletes_digits s :
  ∀ pw n, n ≤ length s → forallb is_digit (take n s) = true →
    filter (λ c, is_digit c = false) (sub_scan pw n s)
    = filter (λ c, is_digit c = false) s
    ∧ sub_scan pw n s `sublist_of` s.
Proof.
  induction s as [|c rest IH]; intros pw n Hlen Hall.
  { split; [done | constructor]. }
  assert (∀ m, S m ≤ length (c :: rest) →
               forallb is_digit (take (S m) (c :: rest)) = true →
               filter (λ c, is_digit c = false) (sub_scan (is_word c) m rest)
               = filter (λ c, is_digit c = false) (c :: rest)
               ∧ sub_scan (is_word c) m rest `sublist_of` c :: rest) as Hskip.
  { intros m Hm. simpl. intros [Hd Hrest]%andb_prop.
    destruct (IH (is_word c) m ltac:(simpl in Hm; lia) Hrest) as [Hf Hs].
    split; [|by apply sublist_cons].
    rewrite filter_cons_False by (by rewrite Hd). done. }
  destruct n as [|n]; [|by apply Hskip].
  cbn [sub_scan].
  destruct (match_here pw (c :: rest)) as [[|m]|] eqn:Hm.
  - destruct (IH (is_word c) 0 ltac:(lia) eq_refl) as [Hf Hs].
    split; [|by apply sublist_skip]. rewrite !filter_cons. by rewrite Hf.
  - unfold match_here in Hm. destruct (boundary pw (c :: rest)); [|done].
    apply match_digits_boundary_digits in Hm as [Hm Hdigits]. by apply Hskip.
  - destruct (IH (is_word c) 0 ltac:(lia) eq_refl) as [Hf Hs].
    split; [|by apply sublist_skip]. rewrite !filter_cons. by rewrite Hf.
Qed.

(** Where the search finds nothing, the substitution changes nothing. *)
Lemma sub_scan_no_match s : ∀ pw, search_scan pw s = false → sub_scan pw 0 s = s.
Proof.
  induction s as [|c rest IH]; intros pw; [done|]. simpl.
  destruct (match_here pw (c :: rest)); [done|].
  intros Hrest. by rewrite IH.
Qed.

Lemma of_list_to_list s :
  String.string_of_list_ascii (String.list_ascii_of_string s) = s.
Proof. apply String.string_of_list_ascii_of_string. Qed.

Lemma lstrip_split l :
  ∃ lead, l = lead ++ lstrip_chars l ∧ forallb is_space lead = true.
Proof.
  induction l as [|c rest (lead & IH & Hlead)]; [by exists []|]. simpl.
  destruct (is_space c) eqn:Hs.
  - exists (c :: lead). simpl. rewrite Hs, Hlead. by rewrite IH at 1.
  - by exists [].
Qed.

Lemma rstrip_split l :
  ∃ trail, l = rstrip_chars l ++ trail ∧ forallb is_space trail = true.
Proof.
  unfold rstrip_chars.
  destruct (lstrip_split (reverse l)) as (lead & Hl & Hlead).
  exists (reverse lead). split.
  - rewrite <- reverse_app, <- Hl. by rewrite reverse_involutive.
  - apply forallb_forall. intros c Hc%list_elem_of_In.
    rewrite elem_of_reverse in Hc.
    rewrite forallb_forall in Hlead. by apply Hlead, list_elem_of_In.
Qed.

Lemma lstrip_fixed l :
  from_option is_space false (head l) = false → lstrip_chars l = l.
Proof. destruct l as [|c rest]; [done|]. simpl. by intros ->. Qed.

Lemma rstrip_fixed l :
  from_option is_space false (last l) = false → rstrip_chars l = l.
Proof.
  intros Hlast. unfold rstrip_chars.
  rewrite lstrip_fixed by (by rewrite head_reverse).
  apply reverse_involutive.
Qed.

Lemma head_lstrip_any l : from_option is_space false (head (lstrip_chars l)) = false.
Proof.
  induction l as [|c rest IH]; [done|]. simpl.
  destruct (is_space c) eqn:Hs; [done|]. simpl. done.
Qed.

Lemma head_rstrip_any l :
  from_option is_space false (head l) = false →
  from_option is_space false (head (rstrip_chars l)) = false.
Proof.
  destruct (rstrip_split l) as (trail & Hl & _).
  destruct (rstrip_chars l) as [|c r]; [done|]. rewrite Hl. done.
Qed.

Lemma strip_fixed s : no_outer_whitespace s = true → strip s = s.
Proof.
  unfold no_outer_whitespace, strip. cbn zeta.
  intros [Hhead Hlast]%andb_prop.
  apply negb_true_iff in Hhead, Hlast.
  rewrite (lstrip_fixed _ Hhead), (rstrip_fixed _ Hlast).
  apply of_list_to_list.
Qed.

Lemma strip_no_outer_whitespace s : no_outer_whitespace (strip s) = true.
Proof.
  unfold no_outer_whitespace, strip.
  rewrite String.list_ascii_of_string_of_list_ascii. cbn zeta.
  rewrite head_rstrip_any by apply head_lstrip_any.
  unfold rstrip_chars at 1. rewrite last_reverse.
  by rewrite head_lstrip_any.
Qed.

End CleaningMore.

(** X7: the cleaning [re.sub(r"\b\d+\b", "", string).strip()] deletes only
    digits and whitespace: every other character of the string is kept, in
    its order, and the result is the string with some characters left out. *)
Theorem cleaning_deletes_digits_and_whitespace `{External} (s : string) :
  filter (λ c, is_space c = false ∧ is_digit c = false)
    (String.list_ascii_of_string (strip (re_sub_digits s)))
  = filter (λ c, is_space c = false ∧ is_digit c = false)
      (String.list_ascii_of_string s)
  ∧ String.list_ascii_of_string (strip (re_sub_digits s))
    `sublist_of` String.list_ascii_of_string s.
Proof.
  unfold strip, re_sub_digits. rewrite !String.list_ascii_of_string_of_list_ascii.
  set (l := String.list_ascii_of_string s).
  destruct (sub_scan_deletes_digits l false 0 ltac:(lia) eq_refl) as [Hkeep Hsub].
  destruct (lstrip_split (sub_scan false 0 l)) as (lead & Hl & Hlead).
  destruct (rstrip_split (lstrip_chars (sub_scan false 0 l))) as (trail & Hr & Htrail).
  assert (∀ spaces, forallb is_space spaces = true →
            filter (λ c, is_space c = false ∧ is_digit c = false) spaces = []) as Hnone.
  { intros spaces Hall. induction spaces as [|c spaces IH]; [done|].
    simpl in Hall. apply andb_prop in Hall as [Hc Hall].
    rewrite filter_cons_False by (rewrite Hc; naive_solver). by apply IH. }
  split.
  - rewrite <- !list_filter_filter, <- Hkeep, !list_filter_filter.
    rewrite Hl at 2. rewrite Hr at 2.
    rewrite !filter_app, (Hnone _ Hlead), (Hnone _ Htrail).
    by rewrite app_nil_r.
  - etrans; [|exact Hsub]. rewrite Hl at 2. rewrite Hr at 2.
    apply sublist_inserts_l, sublist_inserts_r. done.
Qed.

(** X8: the cleaning leaves a string as it is exactly when the string has no
    standalone digit run and neither starts nor ends with whitespace. *)
Theorem cleaning_fixed_iff `{ExternalLaws} (s : string) :
  strip (re_sub_digits s) = s
  ↔ re_search_digits s = false ∧ no_outer_whitespace s = true.
Proof.
  split.
  - intros Hfixed. split.
    + rewrite <- Hfixed. apply re_search_strip_sub.
    + rewrite <- Hfixed. apply strip_no_outer_whitespace.
  - intros [Hnone Houter]. unfold re_search_digits in Hnone.
    unfold re_sub_digits. rewrite (sub_scan_no_match _ _ Hnone), of_list_to_list.
    by apply strip_fixed.
Qed.

Lemma cleaning_fixed_iff_witness : strip (re_sub_digits "AC/DC") = "AC/DC".
Proof.
  apply (cleaning_fixed_iff (H0 := ascii_setting_laws) "AC/DC").
  split; reflexivity.
Defined.

(** X9: cleaning a string that [query_as_list] has cleaned changes nothing. *)
Theorem cleaning_is_idempotent `{ExternalLaws} (s : string) :
  strip (re_sub_digits (strip (re_sub_digits s))) = strip (re_sub_digits s).
Proof.
  assert (re_sub_digits (strip (re_sub_digits s)) = strip (re_sub_digits s)) as ->.
  { pose proof (re_search_strip_sub s) as Hnone. unfold re_search_digits in Hnone.
    unfold re_sub_digits at 1. rewrite (sub_scan_no_match _ _ Hnone).
    apply of_list_to_list. }
  apply strip_fixed, strip_no_outer_whitespace.
Qed.

Lemma cleaning_is_idempotent_witness :
  strip (re_sub_digits (strip (re_sub_digits "  10,000 Maniacs 1 "))) = ", Maniacs".
Proof.
  rewrite (cleaning_is_idempotent (H0 := ascii_setting_laws) "  10,000 Maniacs 1 ").
  reflexivity.
Defined.

(** ** [query_as_list]: when it returns and what it asks *)

Section QueryAsListMore.
Context `{External}.

Lemma mapM_clean_Ok_iff els :
  (∃ out, mapM clean els = Ok out) ↔ Forall (λ el, is_str el = true) els.
Proof.
  split.
  - intros [out (strings & -> & _)%mapM_clean_Ok].
    apply Forall_map, Forall_forall. by intros s _.
  - intros Hall. induction Hall as [|el els Hel _ [out IH]]; [by exists []|].
    destruct el; try done. eexists. rewrite mapM_cons, IH. reflexivity.
Qed.

Lemma mapM_clean_length els out : mapM clean els = Ok out → length out = length els.
Proof.
  intros (strings & -> & ->)%mapM_clean_Ok. by rewrite !length_map.
Qed.

Lemma mapM_clean_TypeError els e : mapM clean els = Raise e → e = TypeError.
Proof. intros (el & _ & Hel)%mapM_Raise. by apply clean_Raise in Hel. Qed.

Lemma rows_as_list_TypeError parsed e : rows_as_list parsed = Raise e → e = TypeError.
Proof.
  unfold rows_as_list. intros Hr.
  destruct (py_iter parsed) as [rows|e'] eqn:Hiter; simpl in Hr.
  - destruct (flatten_truthy rows) as [els|e'] eqn:Hflat; simpl in Hr.
    + by apply mapM_clean_TypeError in Hr.
    + injection Hr as <-. by apply flatten_truthy_Raise in Hflat.
  - injection Hr as <-. destruct parsed; simpl in Hiter; congruence.
Qed.

Lemma py_iter_not_iterable v : iterable v = false → py_iter v = Raise TypeError.
Proof. by destruct v. Qed.

Lemma flatten_truthy_not_iterable rows :
  Exists (λ row, iterable row = false) rows → flatten_truthy rows = Raise TypeError.
Proof.
  induction 1 as [row rows Hrow|row rows _ IH]; simpl.
  - by rewrite (py_iter_not_iterable _ Hrow).
  - rewrite IH. destruct row; reflexivity.
Qed.

End QueryAsListMore.

(** X10: on a result that parses as a list of tuples, [query_as_list] returns
    a list exactly when every truthy element is a string; it then returns one
    string for each truthy element; otherwise it raises [TypeError], whatever
    the other elements are. *)
Theorem query_as_list_returns_iff `{External} (db : world) (sql res : string)
    (rows : list (list pyval)) (nb : notebook) :
  db_run db (trace nb) sql = Ok res →
  literal_eval res = Ok (PyList (map PyTuple rows)) →
  ((∃ out, outcome (query_as_list db sql) nb = Ok out)
   ↔ Forall (λ el, truthy el = true → is_str el = true) (concat rows))
  ∧ (∀ out, outcome (query_as_list db sql) nb = Ok out →
       length out = length (filter (λ el, truthy el = true) (concat rows))
       ∧ length out ≤ length (concat rows))
  ∧ (∀ e, outcome (query_as_list db sql) nb = Raise e → e = TypeError).
Proof.
  intros Hrun Hparse.
  assert (outcome (query_as_list db sql) nb
          = mapM clean (filter (λ el, truthy el = true) (concat rows))) as ->.
  { rewrite query_as_list_outcome, Hrun. simpl. rewrite Hparse. simpl.
    apply rows_as_list_tuples. }
  split_and!.
  - rewrite mapM_clean_Ok_iff, Forall_forall, Forall_forall.
    setoid_rewrite list_elem_of_filter. naive_solver.
  - intros out Hout. rewrite (mapM_clean_length _ _ Hout).
    split; [done | apply length_filter].
  - apply mapM_clean_TypeError.
Qed.

Lemma query_as_list_returns_iff_witness :
  (∃ out, outcome (query_as_list artist_db "SELECT Name FROM Artist") fresh = Ok out)
  ∧ ¬ (∃ out, outcome (query_as_list numbered_db "SELECT * FROM Artist") fresh = Ok out).
Proof.
  split.
  - apply (query_as_list_returns_iff artist_db "SELECT Name FROM Artist"
             "[('AC/DC',), (None,), ('',), ('1999',), ('2 Unlimited',)]"
             [[PyStr "AC/DC"]; [PyNone]; [PyStr ""]; [PyStr "1999"];
              [PyStr "2 Unlimited"]] fresh eq_refl eq_refl).
    repeat constructor; by intros [=].
  - intros Hout.
    apply (query_as_list_returns_iff numbered_db "SELECT * FROM Artist"
             "[(1, 'AC/DC')]" [[PyInt 1; PyStr "AC/DC"]] fresh eq_refl eq_refl)
      in Hout.
    apply Forall_inv in Hout. by specialize (Hout eq_refl).
Defined.

(** X11: once [db.run] and [ast.literal_eval] have succeeded, the only
    exception [query_as_list] raises is [TypeError]; it raises it when the
    parsed value is not iterable (None, a boolean, a number) and when one of
    its rows is not. *)
Theorem query_as_list_type_errors `{External} (db : world) (sql res : string)
    (parsed : pyval) (nb : notebook) :
  db_run db (trace nb) sql = Ok res →
  literal_eval res = Ok parsed →
  (∀ e, outcome (query_as_list db sql) nb = Raise e → e = TypeError)
  ∧ (iterable parsed = false → outcome (query_as_list db sql) nb = Raise TypeError)
  ∧ (∀ rows, py_iter parsed = Ok rows →
       Exists (λ row, iterable row = false) rows →
       outcome (query_as_list db sql) nb = Raise TypeError).
Proof.
  intros Hrun Hparse.
  assert (outcome (query_as_list db sql) nb = rows_as_list parsed) as ->.
  { rewrite query_as_list_outcome, Hrun. simpl. by rewrite Hparse. }
  split_and!.
  - apply rows_as_list_TypeError.
  - intros Hnot. unfold rows_as_list. by rewrite (py_iter_not_iterable _ Hnot).
  - intros rows Hrows Hex. unfold rows_as_list. rewrite Hrows. simpl.
    by rewrite (flatten_truthy_not_iterable _ Hex).
Qed.

Lemma query_as_list_type_errors_witness :
  outcome (query_as_list numbered_db "SELECT * FROM Artist") fresh = Raise TypeError
  ∧ ∀ e, outcome (query_as_list numbered_db "SELECT * FROM Artist") fresh = Raise e →
         e = TypeError.
Proof.
  split; [reflexivity|].
  apply (query_as_list_type_errors numbered_db "SELECT * FROM Artist"
           "[(1, 'AC/DC')]" (PyList [PyTuple [PyInt 1; PyStr "AC/DC"]]) fresh
           eq_refl eq_refl).
Defined.

(** X12: on a result that parses as a list of tuples, [query_as_list] returns
    the empty list exactly when no element is truthy (no rows, or only NULLs
    and empty strings). *)
Theorem query_as_list_empty_iff `{External} (db : world) (sql res : string)
    (rows : list (list pyval)) (nb : notebook) :
  db_run db (trace nb) sql = Ok res →
  literal_eval res = Ok (PyList (map PyTuple rows)) →
  outcome (query_as_list db sql) nb = Ok []
  ↔ Forall (λ el, truthy el = false) (concat rows).
Proof.
  intros Hrun Hparse.
  assert (outcome (query_as_list db sql) nb
          = mapM clean (filter (λ el, truthy el = true) (concat rows))) as ->.
  { rewrite query_as_list_outcome, Hrun. simpl. rewrite Hparse. simpl.
    apply rows_as_list_tuples. }
  split.
  - intros Hout. pose proof (mapM_clean_length _ _ Hout) as Hlen.
    symmetry in Hlen. apply nil_length_inv in Hlen.
    apply Forall_forall. intros el Hel.
    destruct (truthy el) eqn:Ht; [|done].
    assert (el ∈ filter (λ el, truthy el = true) (concat rows)) as Hin
      by by apply list_elem_of_filter.
    rewrite Hlen in Hin. by apply elem_of_nil in Hin.
  - intros Hall.
    assert (filter (λ el, truthy el = true) (concat rows) = []) as ->; [|done].
    induction Hall as [|el els Hel _ IH]; [done|].
    rewrite filter_cons_False by (by rewrite Hel). done.
Qed.

Lemma query_as_list_empty_iff_witness :
  outcome (query_as_list artist_db "SELECT Name FROM Artist") fresh = Ok []
  ↔ Forall (λ el, truthy el = false)
      [PyStr "AC/DC"; PyNone; PyStr ""; PyStr "1999"; PyStr "2 Unlimited"].
Proof.
  apply (query_as_list_empty_iff artist_db "SELECT Name FROM Artist"
           "[('AC/DC',), (None,), ('',), ('1999',), ('2 Unlimited',)]"
           [[PyStr "AC/DC"]; [PyNone]; [PyStr ""]; [PyStr "1999"];
            [PyStr "2 Unlimited"]] fresh eq_refl eq_refl).
Defined.

(** ** Cell 10: the list of proper nouns *)

Section CellsMoreFacts.
Context `{External}.

Lemma query_as_list_run (db : world) sql nb :
  query_as_list db sql nb
  = (extend_trace (query_requests db sql (trace nb)) nb,
     query_result db sql (trace nb)).
Proof.
  unfold query_as_list, query_requests, query_result, extend_trace.
  rewrite run_bind, run_call.
  destruct (db_run db (trace nb) sql) as [res|e]; [|done].
  rewrite run_bind, run_call. unfold record. simpl.
  destruct (literal_eval res); simpl; by rewrite <- app_assoc.
Qed.

Lemma assign_proper_nouns_run (db : world) sql nb nouns :
  query_result db sql (trace nb) = Ok nouns →
  assign_proper_nouns db sql nb
  = ({| trace := trace nb ++ query_requests db sql (trace nb);
        proper_nouns := Some nouns;
        vector_db := vector_db nb; query := query nb |}, Ok ()).
Proof.
  intros Hres. unfold assign_proper_nouns.
  by rewrite run_bind, query_as_list_run, Hres.
Qed.

Lemma extend_proper_nouns_run (db : world) sql nb nouns more :
  proper_nouns nb = Some nouns →
  query_result db sql (trace nb) = Ok more →
  extend_proper_nouns db sql nb
  = ({| trace := trace nb ++ query_requests db sql (trace nb);
        proper_nouns := Some (nouns ++ more);
        vector_db := vector_db nb; query := query nb |}, Ok ()).
Proof.
  intros Hnouns Hres. unfold extend_proper_nouns.
  rewrite run_bind. unfold load. rewrite Hnouns.
  by rewrite run_bind, query_as_list_run, Hres.
Qed.

Lemma query_requests_length (db : world) sql h nouns :
  query_result db sql h = Ok nouns → length (query_requests db sql h) = 2.
Proof.
  unfold query_result, query_requests. by destruct (db_run db h sql).
Qed.

Lemma assign_proper_nouns_fails (db : world) sql nb e :
  query_result db sql (trace nb) = Raise e →
  assign_proper_nouns db sql nb
  = (extend_trace (query_requests db sql (trace nb)) nb, Raise e).
Proof.
  intros Hres. unfold assign_proper_nouns.
  by rewrite run_bind, query_as_list_run, Hres.
Qed.

Lemma extend_proper_nouns_fails (db : world) sql nb nouns e :
  proper_nouns nb = Some nouns →
  query_result db sql (trace nb) = Raise e →
  extend_proper_nouns db sql nb
  = (extend_trace (query_requests db sql (trace nb)) nb, Raise e).
Proof.
  intros Hnouns Hres. unfold extend_proper_nouns.
  rewrite run_bind. unfold load. rewrite Hnouns.
  by rewrite run_bind, query_as_list_run, Hres.
Qed.

Lemma query_requests_about (db : world) sql h :
  Forall (λ en, is_db_run (request en) = true → request en = DbRun sql)
    (query_requests db sql h).
Proof.
  unfold query_requests. destruct (db_run db h sql); by repeat constructor.
Qed.

End CellsMoreFacts.

(** X13: when its three queries succeed, cell 10 leaves in [proper_nouns] the
    artists, then the albums, then the genres, whatever the variable held
    before; it displays the first five of them, assigns no other variable and
    makes six requests (a query and a parse for each list).  Each query is
    answered in the state the one before it has left. *)
Theorem cell10_concatenates `{External} (db : world) (nb : notebook)
    (artists albums genres : list string) :
  outcome (query_as_list db "SELECT Name FROM Artist") nb = Ok artists →
  outcome (query_as_list db "SELECT Title FROM Album")
    (after (query_as_list db "SELECT Name FROM Artist") nb) = Ok albums →
  outcome (query_as_list db "SELECT Name FROM Genre")
    (after (query_as_list db "SELECT Title FROM Album")
       (after (query_as_list db "SELECT Name FROM Artist") nb)) = Ok genres →
  outcome (cell10 db) nb = Ok (take 5 (artists ++ albums ++ genres))
  ∧ proper_nouns (after (cell10 db) nb) = Some (artists ++ albums ++ genres)
  ∧ vector_db (after (cell10 db) nb) = vector_db nb
  ∧ query (after (cell10 db) nb) = query nb
  ∧ length (requests (cell10 db) nb) = 6.
Proof.
  unfold outcome, after. rewrite !query_as_list_run. cbn [fst snd trace extend_trace].
  intros Hartists Halbums Hgenres.
  assert (cell10 db nb
          = ({| trace := ((trace nb
                           ++ query_requests db "SELECT Name FROM Artist" (trace nb))
                          ++ query_requests db "SELECT Title FROM Album"
                               (trace nb
                                ++ query_requests db "SELECT Name FROM Artist" (trace nb)))
                         ++ query_requests db "SELECT Name FROM Genre"
                              ((trace nb
                                ++ query_requests db "SELECT Name FROM Artist" (trace nb))
                               ++ query_requests db "SELECT Title FROM Album"
                                    (trace nb
                                     ++ query_requests db "SELECT Name FROM Artist"
                                          (trace nb)));
                proper_nouns := Some ((artists ++ albums) ++ genres);
                vector_db := vector_db nb; query := query nb |},
             Ok (take 5 ((artists ++ albums) ++ genres)))) as Hrun.
  { unfold cell10.
    rewrite run_bind, (assign_proper_nouns_run _ _ _ _ Hartists).
    rewrite run_bind.
    erewrite extend_proper_nouns_run; [|reflexivity|exact Halbums].
    rewrite run_bind.
    erewrite extend_proper_nouns_run; [|reflexivity|exact Hgenres].
    reflexivity. }
  unfold requests. rewrite Hrun. cbn [fst snd trace proper_nouns vector_db query].
  rewrite <- !app_assoc, drop_app_length, !length_app.
  rewrite (query_requests_length _ _ _ _ Hartists).
  rewrite <- ?app_assoc in Hgenres.
  rewrite (query_requests_length _ _ _ _ Halbums), (query_requests_length _ _ _ _ Hgenres).
  done.
Qed.

Lemma cell10_concatenates_witness :
  outcome (cell10 audioslave_db)
    {| trace := []; proper_nouns := Some ["left over"]; vector_db := None;
       query := None |}
  = Ok ["Audioslave"; "Audioslave"; "Rock"].
Proof.
  by apply (cell10_concatenates audioslave_db
              {| trace := []; proper_nouns := Some ["left over"]; vector_db := None;
                 query := None |}
              ["Audioslave"] ["Audioslave"] ["Rock"] eq_refl eq_refl eq_refl).
Defined.

(** X14: cell 10 stops at its first failing query and keeps what the queries
    before it have stored: when the query on albums fails, [proper_nouns]
    holds the artists alone and the genres are never asked for; when the
    query on genres fails, it holds the artists and the albums.  The
    exception is the query's. *)
Theorem cell10_stops_at_first_failure `{External} (db : world) (nb : notebook)
    (artists : list string) :
  outcome (query_as_list db "SELECT Name FROM Artist") nb = Ok artists →
  (∀ e,
     outcome (query_as_list db "SELECT Title FROM Album")
       (after (query_as_list db "SELECT Name FROM Artist") nb) = Raise e →
     outcome (cell10 db) nb = Raise e
     ∧ proper_nouns (after (cell10 db) nb) = Some artists
     ∧ Forall (λ en, request en ≠ DbRun "SELECT Name FROM Genre")
         (requests (cell10 db) nb))
  ∧ (∀ albums e,
       outcome (query_as_list db "SELECT Title FROM Album")
         (after (query_as_list db "SELECT Name FROM Artist") nb) = Ok albums →
       outcome (query_as_list db "SELECT Name FROM Genre")
         (after (query_as_list db "SELECT Title FROM Album")
            (after (query_as_list db "SELECT Name FROM Artist") nb)) = Raise e →
       outcome (cell10 db) nb = Raise e
       ∧ proper_nouns (after (cell10 db) nb) = Some (artists ++ albums)).
Proof.
  unfold outcome, after. rewrite !query_as_list_run. cbn [fst snd trace extend_trace].
  intros Hartists. split.
  - intros e Halbums.
    assert (cell10 db nb
            = ({| trace := (trace nb
                            ++ query_requests db "SELECT Name FROM Artist" (trace nb))
                           ++ query_requests db "SELECT Title FROM Album"
                                (trace nb
                                 ++ query_requests db "SELECT Name FROM Artist"
                                      (trace nb));
                  proper_nouns := Some artists;
                  vector_db := vector_db nb; query := query nb |},
               Raise e)) as Hrun.
    { unfold cell10.
      rewrite run_bind, (assign_proper_nouns_run _ _ _ _ Hartists).
      rewrite run_bind.
      erewrite extend_proper_nouns_fails; [|reflexivity|exact Halbums].
      reflexivity. }
    unfold requests. rewrite Hrun. cbn [fst snd trace proper_nouns].
    split_and!; [done..|].
    rewrite <- !app_assoc, drop_app_length. apply Forall_app. split.
    + eapply Forall_impl; [apply query_requests_about|].
      intros en Hen Hreq. simpl in Hen. rewrite Hreq in Hen.
      by specialize (Hen eq_refl).
    + eapply Forall_impl; [apply query_requests_about|].
      intros en Hen Hreq. simpl in Hen. rewrite Hreq in Hen.
      by specialize (Hen eq_refl).
  - intros albums e Halbums Hgenres.
    assert ((cell10 db nb).2 = Raise e
            ∧ proper_nouns (cell10 db nb).1 = Some (artists ++ albums)) as Hrun.
    { unfold cell10.
      rewrite run_bind, (assign_proper_nouns_run _ _ _ _ Hartists).
      rewrite run_bind.
      erewrite extend_proper_nouns_run; [|reflexivity|exact Halbums].
      rewrite run_bind.
      erewrite extend_proper_nouns_fails; [|reflexivity|exact Hgenres].
      done. }
    done.
Qed.

Lemma cell10_stops_at_first_failure_witness :
  outcome (cell10 album_query_fails) fresh = Raise (LibraryError "OperationalError")
  ∧ proper_nouns (after (cell10 album_query_fails) fresh) = Some ["Audioslave"].
Proof.
  pose proof (cell10_stops_at_first_failure album_query_fails fresh ["Audioslave"]
                eq_refl) as [Halbum _].
  destruct (Halbum (LibraryError "OperationalError") eq_refl) as (Hout & Hnouns & _).
  by split.
Defined.

(** ** Cells and chains at their edges *)

(** X15: a cell that is run before the cell that binds its variable raises
    [NameError] for that variable, makes no request and changes nothing:
    cell 9 without [query], cell 11 without [proper_nouns]. *)
Theorem cells_out_of_order `{External} (w : world) (nb : notebook) :
  (query nb = None → cell9 w nb = (nb, Raise (NameError "query")))
  ∧ (proper_nouns nb = None → cell11 w nb = (nb, Raise (NameError "proper_nouns"))).
Proof.
  split.
  - intros Hq. unfold cell9, run_query. rewrite run_bind. unfold load. by rewrite Hq.
  - intros Hn. unfold cell11. rewrite run_bind. unfold load. by rewrite Hn.
Qed.

(** X16: invoked on a dict without the key [question], the chains that start
    with [itemgetter("question")] (the table chain and the retriever chain,
    and with them [full_chain] and [chain]) raise [KeyError] for that key
    before any request is made. *)
Theorem chains_need_a_question `{External} (w : world) (x : gmap string pyval)
    (nb : notebook) :
  x !! "question" = None →
  table_chain w x nb = (nb, Raise (KeyError "question"))
  ∧ full_chain w x nb = (nb, Raise (KeyError "question"))
  ∧ retriever_chain w x nb = (nb, Raise (KeyError "question"))
  ∧ chain w x nb = (nb, Raise (KeyError "question")).
Proof.
  intros Hx.
  assert (table_chain w x nb = (nb, Raise (KeyError "question"))) as Htable.
  { unfold table_chain, pipe. rewrite run_bind. unfold itemgetter. by rewrite Hx. }
  assert (retriever_chain w x nb = (nb, Raise (KeyError "question"))) as Hretr.
  { unfold retriever_chain, pipe. rewrite run_bind. unfold itemgetter. by rewrite Hx. }
  split_and!; [done| |done|].
  - by rewrite full_chain_run, Htable.
  - unfold chain, pipe, assign. by rewrite !run_bind, Hretr.
Qed.

Lemma chains_need_a_question_witness :
  outcome (full_chain artist_db {["input" := PyStr "Which genres?"]}) fresh
  = Raise (KeyError "question").
Proof.
  destruct (chains_need_a_question artist_db {["input" := PyStr "Which genres?"]}
              fresh ltac:(by vm_compute)) as (_ & Hfull & _).
  unfold outcome. by rewrite Hfull.
Defined.

(** X17: cell 8 leaves the string it returns in [query] and touches no other
    variable; cell 9, run next, sends exactly that string to the database and
    returns what the database answers. *)
Theorem cell8_then_cell9 `{External} (w : world) (question sql : string)
    (nb : notebook) :
  outcome (cell8 w question) nb = Ok sql →
  query (after (cell8 w question) nb) = Some sql
  ∧ proper_nouns (after (cell8 w question) nb) = proper_nouns nb
  ∧ vector_db (after (cell8 w question) nb) = vector_db nb
  ∧ requests (cell9 w) (after (cell8 w question) nb)
    = [mkEntry (DbRun sql)
         (error_of (db_run w (trace (after (cell8 w question) nb)) sql))]
  ∧ outcome (cell9 w) (after (cell8 w question) nb)
    = db_run w (trace (after (cell8 w question) nb)) sql.
Proof.
  unfold outcome, after, cell8, assign_query.
  pose proof (full_chain_reads_only w {["question" := PyStr question]} nb) as Hvars.
  rewrite run_bind.
  destruct (full_chain w {["question" := PyStr question]} nb) as [nb1 [q|e]];
    [|done].
  simpl. intros [= ->]. unfold variables in Hvars. simpl in Hvars.
  injection Hvars as Hn Hv Hq.
  split_and!; try done.
  - unfold requests, cell9, run_query. rewrite run_bind. unfold load. simpl.
    by rewrite drop_app_length.
Qed.

Lemma cell8_then_cell9_witness :
  query (after (cell8 artist_db "Which genres?") fresh) = Some "SELECT Name FROM Artist".
Proof.
  by apply (cell8_then_cell9 artist_db "Which genres?" "SELECT Name FROM Artist"
              fresh ltac:(by vm_compute)).
Defined.

(** ** The index, retrieval at its bounds, and the cost of a question *)

Section IndexFacts.
Context `{External}.

Lemma category_prompt_format_any v :
  format_prompt category_prompt {["input" := v]}
  = Ok [("system", category_system);
        ("human", match v with
                  | PyStr s => s
                  | other => py_str other
                  end)].
Proof.
  unfold format_prompt, category_prompt. rewrite !mapM_cons.
  unfold format_message. cbn [fst snd]. rewrite !mapM_cons.
  unfold format_segment. simplify_map_eq. by destruct v.
Qed.

Lemma get_tables_usable categories :
  Forall (λ t, t ∈ usable_table_names) (get_tables categories).
Proof.
  rewrite get_tables_flat_map. unfold get_tables_spec.
  induction categories as [|c cs IH]; simpl; [constructor|].
  apply Forall_app. split; [apply category_tables_usable | exact IH].
Qed.

Lemma table_chain_run_any w x nb :
  table_chain w x nb
  = match x !! "question" with
    | None => (nb, Raise (KeyError "question"))
    | Some v =>
        let messages := [("system", category_system);
                         ("human", match v with
                                   | PyStr s => s
                                   | other => py_str other
                                   end)] in
        match llm_with_tools w (trace nb) messages with
        | Ok categories =>
            (record (mkEntry (ChatTools messages) None) nb, Ok (get_tables categories))
        | Raise e => (record (mkEntry (ChatTools messages) (Some e)) nb, Raise e)
        end
    end.
Proof.
  unfold table_chain, category_chain, pipe.
  unfold mbind, M_bind, mret, M_ret, lift, call, itemgetter.
  destruct (x !! "question") as [v|]; [|done]. cbn beta iota.
  rewrite category_prompt_format_any. cbn beta iota zeta.
  by destruct (llm_with_tools w (trace nb) _).
Qed.

End IndexFacts.

(** X19: when the index holds at most fifteen entries, retrieval returns all
    of them, whatever the question: the texts returned are the texts of the
    index up to their order. *)
Theorem small_index_is_returned_whole `{External} (w : world) (question : string)
    (nb : notebook) (index : list (string * vec)) (q : vec) :
  vector_db nb = Some index →
  embed_query w (trace nb) question = Ok q →
  length index ≤ 15 →
  ∃ docs, outcome (retriever w question) nb = Ok docs
          ∧ map page_content docs ≡ₚ map fst index
          ∧ length docs = length index.
Proof.
  intros Hindex Hq Hlen. exists (similarity_search index q search_k).
  unfold outcome. rewrite (retriever_run _ _ _ _ _ Hindex Hq).
  assert (nearest index q search_k ≡ₚ index) as Hperm.
  { unfold nearest. rewrite take_ge.
    - apply merge_sort_Permutation.
    - rewrite (Permutation_length (merge_sort_Permutation (closer q) index)).
      unfold search_k. lia. }
  unfold similarity_search. split_and!; [done| |].
  - rewrite map_map. simpl. by apply (Permutation_map fst).
  - rewrite length_map. by apply Permutation_length.
Qed.

Lemma small_index_is_returned_whole_witness :
  ∃ docs, outcome (retriever length_world "Which genres?") two_entry_notebook = Ok docs
          ∧ length docs = 2.
Proof.
  destruct (small_index_is_returned_whole length_world "Which genres?"
              two_entry_notebook two_entry_index [13%Z]
              eq_refl eq_refl ltac:(simpl; lia)) as (docs & Hout & _ & Hlen).
  by exists docs.
Defined.

(** X20: answering one question through cells 8 and 9 costs at most four
    requests: at most two go to the chat model (one to select the tables, one
    to write the query), at most one is a [db.run], and none goes to the
    embedding service. *)
Theorem cells_8_9_request_bound `{External} (w : world) (question : string)
    (nb : notebook) :
  length (requests (cell8 w question;; cell9 w) nb) ≤ 4
  ∧ length (filter (λ en, is_chat en = true) (requests (cell8 w question;; cell9 w) nb)) ≤ 2
  ∧ length (filter (λ en, is_db_run (request en) = true)
              (requests (cell8 w question;; cell9 w) nb)) ≤ 1
  ∧ Forall (λ en, stage (request en) ≤ 2) (requests (cell8 w question;; cell9 w) nb).
Proof.
  rewrite (requests_trace _ _ _ (cells_8_9_trace w question nb)).
  unfold pipeline_requests. cbn zeta.
  destruct (llm_with_tools w (trace nb) (category_messages question)) as [categories|e].
  2:{ split_and!; [simpl; lia.. | by repeat constructor]. }
  destruct (db_get_table_info w _ _) as [table_info|e].
  2:{ split_and!; [simpl; lia.. | repeat constructor; simpl; lia]. }
  destruct (format_prompt default_prompt _) as [generation|e].
  2:{ split_and!; [simpl; lia.. | repeat constructor; simpl; lia]. }
  destruct (llm w _ generation) as [sql|e].
  2:{ split_and!; [simpl; lia.. | repeat constructor; simpl; lia]. }
  split_and!; [simpl; lia.. | repeat constructor; simpl; lia].
Qed.

(** X21: whatever the model answers, the table chain of cells 6 and 7 returns
    only usable table names: its output is [get_tables] of the categories the
    model selected, and the model is asked once. *)
Theorem table_chain_selects_usable `{External} (w : world) (x : gmap string pyval)
    (nb : notebook) (tables : list string) :
  outcome (table_chain w x) nb = Ok tables →
  Forall (λ t, t ∈ usable_table_names) tables
  ∧ ∃ categories messages,
      tables = get_tables categories
      ∧ llm_with_tools w (trace nb) messages = Ok categories
      ∧ requests (table_chain w x) nb = [mkEntry (ChatTools messages) None].
Proof.
  unfold outcome, requests. rewrite table_chain_run_any.
  destruct (x !! "question") as [v|]; [|done]. cbn zeta.
  destruct (llm_with_tools w (trace nb) _) as [categories|e] eqn:Hllm; [|done].
  simpl. intros [= <-]. split; [apply get_tables_usable|].
  eexists categories, _. split_and!; [done|exact Hllm|].
  by rewrite drop_app_length.
Qed.

Lemma table_chain_selects_usable_witness :
  Forall (λ t, t ∈ usable_table_names) music_tables.
Proof.
  by apply (table_chain_selects_usable artist_db
              {["question" := PyStr "Which genres?"]} fresh music_tables
              ltac:(by vm_compute)).
Defined.
